(** * LoopController: a shallow embedding of the run-loop scheduler

    The development follows [service/LoopController.js].  The controller is a
    record of its class fields, every method is a function on a [World] that
    holds the controller together with the part of the host it talks to (the
    wall clock, the frame source, the console), and step callbacks are small
    programs over the controller's public surface. *)

From Stdlib Require Import ZArith QArith Qround Qabs Qpower List String Bool.
From Stdlib Require Import Lia Lqa.
From Stdlib Require SpecFloat.
Import ListNotations.
Open Scope Z_scope.

(** ** JavaScript values that reach the constructor *)

(** A frame-request function, seen from the controller: the handle returned
    by its k-th call (k counted from 0).  The callback it is given is always
    the controller's own [step]; it is scheduled, not called on the spot, and
    fires as a [Tick] of a run (see [Op]).  Handles are numbers, as the
    source documents [frameRequestId]. *)
Definition FrameSource := nat -> Z.

Module Js.

(** A finite double, as a mantissa and an exponent: the number
    [mantissa * 2 ^ exponent] with fewer than 54 bits of mantissa and the
    exponent between that of the smallest subnormal and that of the largest
    double.  Every finite double has this form and every such pair is one.
    The sign of a zero is not kept: nothing the controller does tells [-0]
    from [0]. *)
Definition inRange (m e : Z) : bool :=
  (Z.abs m <? 2 ^ 53) && (-1074 <=? e) && (e <=? 971).

Record Double := mkDouble {
  mantissa : Z;
  exponent : Z;
  representable : inRange mantissa exponent = true
}.

(** The number a finite double stands for. *)
Definition value (d : Double) : Q :=
  if 0 <=? exponent d
  then inject_Z (mantissa d * 2 ^ exponent d)
  else mantissa d # Z.to_pos (2 ^ (- exponent d)).

(** A JavaScript number. *)
Inductive Number :=
| Finite (d : Double)
| NaN
| PosInfinity
| NegInfinity.

(** The largest [k] with [2 ^ k <= p / q], for positive [p] and [q]. *)
Definition floorLog2 (p q : Z) : Z :=
  if q <=? p then Z.log2 (p / q) else - Z.log2_up ((q + p - 1) / p).

(** Rounding of the positive rational [p / q] to 53 bits, to nearest with
    ties to even: the exponent of the last place (that of the subnormals at
    the least), the mantissa at that exponent, and the carry into the next
    binade. *)
Definition roundPos (p q : Z) : Z * Z :=
  let e := Z.max (floorLog2 p q - 52) (-1074) in
  let a := if 0 <=? e then p else p * 2 ^ (- e) in
  let b := if 0 <=? e then q * 2 ^ e else q in
  let m0 := a / b in
  let r := a mod b in
  let m := if (b <? 2 * r) || ((b =? 2 * r) && Z.odd m0) then m0 + 1 else m0 in
  if m =? 2 ^ 53 then (2 ^ 52, e + 1) else (m, e).

(** A rounded magnitude that is out of range has overflowed. *)
Definition pack (negative : bool) (me : Z * Z) : Number :=
  let m := if negative then - fst me else fst me in
  match Bool.bool_dec (inRange m (snd me)) true with
  | left H => Finite (mkDouble m (snd me) H)
  | right _ => if negative then NegInfinity else PosInfinity
  end.

(** The double nearest to a rational number, as IEEE 754 rounds the exact
    result of an arithmetic operation (round to nearest, ties to even,
    overflow to an infinity, underflow through the subnormals to zero). *)
Definition round64 (x : Q) : Number :=
  match Qnum x with
  | Z0 => pack false (0, 0)
  | Zpos p => pack false (roundPos (Zpos p) (Zpos (Qden x)))
  | Zneg p => pack true (roundPos (Zpos p) (Zpos (Qden x)))
  end.

Definition isZero (d : Double) : bool := mantissa d =? 0.

Definition isNegative (d : Double) : bool := mantissa d <? 0.

(** The operator [*] on numbers. *)
Definition mul (x y : Number) : Number :=
  match x, y with
  | NaN, _ => NaN
  | _, NaN => NaN
  | Finite a, Finite b => round64 (value a * value b)
  | Finite a, PosInfinity | PosInfinity, Finite a =>
      if isZero a then NaN
      else if isNegative a then NegInfinity else PosInfinity
  | Finite a, NegInfinity | NegInfinity, Finite a =>
      if isZero a then NaN
      else if isNegative a then PosInfinity else NegInfinity
  | PosInfinity, PosInfinity | NegInfinity, NegInfinity => PosInfinity
  | PosInfinity, NegInfinity | NegInfinity, PosInfinity => NegInfinity
  end.

(** What [Math.round] returns: an integer, or its argument when that is an
    infinity or [NaN]. *)
Inductive Integral :=
| Int (z : Z)
| PlusInfinity
| MinusInfinity
| NotANumber.

Inductive Value :=
| Undefined
| Null
| Boolean (b : bool)
| Num (x : Number)
| Str (s : string)
| Object
| Function (f : FrameSource).

(** [Math.round]: the nearest integer, ties going towards +Infinity. *)
Definition Math_round (x : Number) : Integral :=
  match x with
  | Finite d => Int (Qfloor (value d + (1 # 2))%Q)
  | NaN => NotANumber
  | PosInfinity => PlusInfinity
  | NegInfinity => MinusInfinity
  end.

(** The operator [>] between an integer and a result of [Math.round]. *)
Definition gt (x : Z) (y : Integral) : bool :=
  match y with
  | Int z => x >? z
  | PlusInfinity => false
  | MinusInfinity => true
  | NotANumber => false
  end.

(** A default parameter value is used when the argument is [undefined]. *)
Definition orDefault (arg dflt : Value) : Value :=
  match arg with
  | Undefined => dflt
  | _ => arg
  end.

End Js.

(** The two tcomb predicates the constructor uses: [t.Function.is] is
    [typeof x === 'function'], [t.Number.is] is
    [typeof x === 'number' && isFinite(x) && !isNaN(x)]. *)
Module Tcomb.

Definition Function_is (v : Js.Value) : bool :=
  match v with
  | Js.Function _ => true
  | _ => false
  end.

Definition Number_is (v : Js.Value) : bool :=
  match v with
  | Js.Num (Js.Finite _) => true
  | _ => false
  end.

End Tcomb.

(** ** Module constants *)

Definition INVALID_REQUEST_ID : Z := -1.

(** [1000/60]: the operands are doubles as they stand, the quotient is the
    double nearest to the exact quotient. *)
Definition FRAMERATE : Js.Number := Js.round64 (1000 / 60).

Definition ALLOWED_OVERFLOW_FRAMES : Js.Double := Js.mkDouble 10 0 eq_refl.

(** ** The controller *)

(** Step callbacks are JavaScript functions; the lists hold their identities. *)
Definition StepId := nat.

Record LoopController := mkLoopController {
  isRunning : bool;
  isPaused : bool;
  updateSteps : list StepId;
  renderSteps : list StepId;
  startTimestamp : Z;
  lastTimestamp : Z;
  elapsedTimeInMilliseconds : Z;
  frameRequestId : Z;
  requestFrame : FrameSource;
  allowedOverflowThreshold : Js.Integral
}.

Definition set_isRunning (b : bool) (c : LoopController) : LoopController :=
  mkLoopController b (isPaused c) (updateSteps c) (renderSteps c)
    (startTimestamp c) (lastTimestamp c) (elapsedTimeInMilliseconds c)
    (frameRequestId c) (requestFrame c) (allowedOverflowThreshold c).

Definition set_isPaused (b : bool) (c : LoopController) : LoopController :=
  mkLoopController (isRunning c) b (updateSteps c) (renderSteps c)
    (startTimestamp c) (lastTimestamp c) (elapsedTimeInMilliseconds c)
    (frameRequestId c) (requestFrame c) (allowedOverflowThreshold c).

Definition set_updateSteps (l : list StepId) (c : LoopController) : LoopController :=
  mkLoopController (isRunning c) (isPaused c) l (renderSteps c)
    (startTimestamp c) (lastTimestamp c) (elapsedTimeInMilliseconds c)
    (frameRequestId c) (requestFrame c) (allowedOverflowThreshold c).

Definition set_renderSteps (l : list StepId) (c : LoopController) : LoopController :=
  mkLoopController (isRunning c) (isPaused c) (updateSteps c) l
    (startTimestamp c) (lastTimestamp c) (elapsedTimeInMilliseconds c)
    (frameRequestId c) (requestFrame c) (allowedOverflowThreshold c).

Definition set_startTimestamp (t : Z) (c : LoopController) : LoopController :=
  mkLoopController (isRunning c) (isPaused c) (updateSteps c) (renderSteps c)
    t (lastTimestamp c) (elapsedTimeInMilliseconds c)
    (frameRequestId c) (requestFrame c) (allowedOverflowThreshold c).

Definition set_lastTimestamp (t : Z) (c : LoopController) : LoopController :=
  mkLoopController (isRunning c) (isPaused c) (updateSteps c) (renderSteps c)
    (startTimestamp c) t (elapsedTimeInMilliseconds c)
    (frameRequestId c) (requestFrame c) (allowedOverflowThreshold c).

Definition set_elapsedTimeInMilliseconds (t : Z) (c : LoopController) : LoopController :=
  mkLoopController (isRunning c) (isPaused c) (updateSteps c) (renderSteps c)
    (startTimestamp c) (lastTimestamp c) t
    (frameRequestId c) (requestFrame c) (allowedOverflowThreshold c).

Definition set_frameRequestId (h : Z) (c : LoopController) : LoopController :=
  mkLoopController (isRunning c) (isPaused c) (updateSteps c) (renderSteps c)
    (startTimestamp c) (lastTimestamp c) (elapsedTimeInMilliseconds c)
    h (requestFrame c) (allowedOverflowThreshold c).

(** *** Construction *)

Inductive Thrown :=
| TypeError (message : string).

(** The instance a constructor call that passes both checks leaves behind:
    the field initialisers (both flags [false], both step lists empty,
    timestamps and accumulator 0, [frameRequestId] at the sentinel), then the
    two assignments of the constructor body. *)
Definition newController (requestFrame : FrameSource)
  (allowedOverflowFrames : Js.Double) : LoopController :=
  mkLoopController false false [] [] 0 0 0 INVALID_REQUEST_ID
    requestFrame
    (Js.Math_round (Js.mul (Js.Finite allowedOverflowFrames) FRAMERATE)).

Section Construction.

(** The host's [requestAnimationFrame], the default of the first parameter. *)
Variable requestAnimationFrame : FrameSource.

(** Default parameters, the two checks in the order of the source, then
    the assignments. *)
Definition construct (requestFrameArg allowedOverflowFramesArg : Js.Value)
  : Thrown + LoopController :=
  let requestFrame :=
    Js.orDefault requestFrameArg (Js.Function requestAnimationFrame) in
  let allowedOverflowFrames :=
    Js.orDefault allowedOverflowFramesArg (Js.Num (Js.Finite ALLOWED_OVERFLOW_FRAMES)) in
  match requestFrame with
  | Js.Function f =>
      match allowedOverflowFrames with
      | Js.Num (Js.Finite n) =>
          inr (newController f n)
      | _ => inl (TypeError "Expected the allowedOverflowFrames to be a number")
      end
  | _ => inl (TypeError "Expected the requestFrame method to be a function")
  end.

End Construction.

(** ** The world a controller runs in *)

(** What the embedding observes of a run, in the order it happens: the calls
    out to the host and the calls of registered steps, each with the
    arguments it is given. *)
Inductive Event :=
| Requested (handle : Z)
| Cancelled (handle : Z)
| Called (s : StepId) (args : list Z).

Record World := mkWorld {
  this : LoopController;
  now : Z;
  requests : nat;
  console : list string;
  trace : list Event
}.

Definition modify (f : LoopController -> LoopController) (w : World) : World :=
  mkWorld (f (this w)) (now w) (requests w) (console w) (trace w).

Definition record (e : Event) (w : World) : World :=
  mkWorld (this w) (now w) (requests w) (console w) (trace w ++ [e]).

Definition getCurrentTime (w : World) : Z := now w.

(** [this.requestFrame(this.step)]: the frame source hands out its next
    handle. *)
Definition callRequestFrame (w : World) : Z * World :=
  let h := requestFrame (this w) (requests w) in
  (h, mkWorld (this w) (now w) (S (requests w)) (console w)
        (trace w ++ [Requested h])).

Definition cancelAnimationFrame (h : Z) (w : World) : World :=
  record (Cancelled h) w.

(** *** Lifecycle methods *)

Definition start (w : World) : World :=
  if isRunning (this w) then w
  else
    let (h, w1) := callRequestFrame w in
    let w2 := modify (set_frameRequestId h) w1 in
    let currentTimestamp := getCurrentTime w2 in
    let w3 :=
      if negb (isPaused (this w2))
      then modify (set_startTimestamp currentTimestamp) w2
      else w2 in
    let w4 := modify (set_lastTimestamp currentTimestamp) w3 in
    let w5 := modify (set_isPaused false) w4 in
    modify (set_isRunning true) w5.

Definition stop (w : World) : World :=
  if negb (isRunning (this w)) || (frameRequestId (this w) =? INVALID_REQUEST_ID)
  then w
  else
    let w1 := cancelAnimationFrame (frameRequestId (this w)) w in
    let w2 := modify (set_frameRequestId INVALID_REQUEST_ID) w1 in
    modify (set_isRunning false) w2.

Definition pause (w : World) : World :=
  if negb (isRunning (this w)) || isPaused (this w)
  then w
  else modify (set_isPaused true) (stop w).

(** ** Step callbacks *)

(** What code outside the controller (a step callback, or the owner between
    frames) can do: call a public method, manage the two step lists (the
    source asks for them to be managed directly on the property), write to
    the console, take time, or raise. *)
Inductive Action :=
| CallStart
| CallStop
| CallPause
| EditUpdateSteps (f : list StepId -> list StepId)
| EditRenderSteps (f : list StepId -> list StepId)
| ConsoleLog (s : string)
| TimePasses (dt : Z)
| Throw.

(** How a piece of code ends: normally, or by an exception that unwinds. *)
Inductive Completion :=
| Normal (w : World)
| Abrupt (w : World).

Definition andThen (c : Completion) (k : World -> Completion) : Completion :=
  match c with
  | Normal w => k w
  | Abrupt w => Abrupt w
  end.

Notation "'do' w <- c ;; k" := (andThen c (fun w => k))
  (at level 10, w name, c at level 100, k at level 200).

Definition settle (c : Completion) : World :=
  match c with
  | Normal w => w
  | Abrupt w => w
  end.

Definition perform (a : Action) (w : World) : Completion :=
  match a with
  | CallStart => Normal (start w)
  | CallStop => Normal (stop w)
  | CallPause => Normal (pause w)
  | EditUpdateSteps f =>
      Normal (modify (set_updateSteps (f (updateSteps (this w)))) w)
  | EditRenderSteps f =>
      Normal (modify (set_renderSteps (f (renderSteps (this w)))) w)
  | ConsoleLog s =>
      Normal (mkWorld (this w) (now w) (requests w) (console w ++ [s]) (trace w))
  | TimePasses dt =>
      Normal (mkWorld (this w) (now w + dt) (requests w) (console w) (trace w))
  | Throw => Abrupt w
  end.

Fixpoint performAll (body : list Action) (w : World) : Completion :=
  match body with
  | [] => Normal w
  | a :: rest => do w' <- perform a w ;; performAll rest w'
  end.

(** What happens to a controller from outside: its owner acts on it, or the
    frame source fires the scheduled callback (which it may do at any time,
    also with a stale request).  An exception that leaves either is not the
    controller's to handle; the state stays as it is. *)
Inductive Op :=
| Owner (a : Action)
| Tick.

Section Loop.

(** The registered functions: what the function [s] does when it is called
    with the given arguments in a given world.  Everything an action does is
    determined by the world it starts in, so a body chosen from the world at
    entry covers the functions that branch on what they read. *)
Variable callback : StepId -> list Z -> World -> list Action.

Definition invoke (s : StepId) (args : list Z) (w : World) : Completion :=
  let w0 := record (Called s args) w in
  performAll (callback s args w0) w0.

(** [for (let i = 0; i < length; i++) { steps[i](...args); }] over a copy
    [steps] of a step list; [update] and [render] share this loop and
    differ in the arguments they pass. *)
Fixpoint forEachStep (steps : list StepId) (args : list Z) (w : World)
  : Completion :=
  match steps with
  | [] => Normal w
  | s :: rest => do w' <- invoke s args w ;; forEachStep rest args w'
  end.

(** [const steps = [ ...updateSteps ]]: the list is copied on entry, so the
    loop runs over the value the property has at that moment, whatever is
    done to the property afterwards. *)
Definition update (elapsedTimeInMilliseconds : Z) (w : World) : Completion :=
  let steps := updateSteps (this w) in
  forEachStep steps [elapsedTimeInMilliseconds] w.

Definition render (w : World) : Completion :=
  let steps := renderSteps (this w) in
  forEachStep steps [] w.

(** The tick handler. *)
Definition step (w : World) : Completion :=
  let threshold := allowedOverflowThreshold (this w) in
  if negb (isRunning (this w)) || isPaused (this w)
  then Normal w
  else
    let (h, w1) := callRequestFrame w in
    let w2 := modify (set_frameRequestId h) w1 in
    let currentTimestamp := getCurrentTime w2 in
    let elapsedTime := currentTimestamp - lastTimestamp (this w2) in
    if Js.gt elapsedTime threshold
    then Normal (modify (set_lastTimestamp currentTimestamp) w2)
    else
      let w3 :=
        modify (set_elapsedTimeInMilliseconds
                  (elapsedTimeInMilliseconds (this w2) + elapsedTime)) w2 in
      do w4 <- update elapsedTime w3 ;;
      do w5 <- render w4 ;;
      Normal (modify (set_lastTimestamp currentTimestamp) w5).

(** *** Runs *)

Definition apply (o : Op) (w : World) : World :=
  match o with
  | Owner a => settle (perform a w)
  | Tick => settle (step w)
  end.

Definition run (ops : list Op) (w : World) : World :=
  fold_left (fun w o => apply o w) ops w.

End Loop.

(** The world right after construction, at clock reading [t]. *)
Definition fresh (c : LoopController) (t : Z) : World :=
  mkWorld c t 0 [] [].


(** ** Vocabulary of the properties *)

(** The calls of registered steps in a trace, without the calls to the host. *)
Definition isStepCall (e : Event) : bool :=
  match e with
  | Called _ _ => true
  | _ => false
  end.

Definition stepCalls (tr : list Event) : list Event := filter isStepCall tr.

(** Every step of a list called once, in the order of the list. *)
Definition calls (steps : list StepId) (args : list Z) : list Event :=
  map (fun s => Called s args) steps.

(** The elapsed time a tick fired in [w] computes. *)
Definition elapsedSinceLast (w : World) : Z := now w - lastTimestamp (this w).

(** A tick that passes the guard of [step]. *)
Definition processed (w : World) : Prop :=
  isRunning (this w) = true /\ isPaused (this w) = false.

(** A tick that the guard of [step] turns away. *)
Definition step_skips (w : World) : Prop :=
  isRunning (this w) = false \/ isPaused (this w) = true.

Definition overflows (w : World) : Prop :=
  Js.gt (elapsedSinceLast w) (allowedOverflowThreshold (this w)) = true.

(** The world of a processed tick once the next frame is requested. *)
Definition armed (w : World) : World :=
  modify (set_frameRequestId (fst (callRequestFrame w)))
    (snd (callRequestFrame w)).

(** The world in which the update phase of a processed tick starts. *)
Definition accounted (w : World) : World :=
  modify (set_elapsedTimeInMilliseconds
            (elapsedTimeInMilliseconds (this w) + elapsedSinceLast w))
    (armed w).

(** While the controller runs, its last timestamp is not in the future. *)
Definition clockSane (w : World) : Prop :=
  isRunning (this w) = true -> lastTimestamp (this w) <= now w.

(** From [w] to [v] the clock has not run backwards and the accumulator has
    not decreased. *)
Definition onwards (w v : World) : Prop :=
  clockSane v /\ now w <= now v /\
  elapsedTimeInMilliseconds (this w) <= elapsedTimeInMilliseconds (this v).

(** A run in progress that was started at clock reading [t0]. *)
Definition runningSince (t0 : Z) (w : World) : Prop :=
  isRunning (this w) = true /\ isPaused (this w) = false /\
  startTimestamp (this w) = t0.

(** No handle of the frame source collides with the sentinel, the running
    controller holds a handle, and the two flags exclude each other. *)
Definition lifecycleConsistent (w : World) : Prop :=
  (forall k, requestFrame (this w) k <> INVALID_REQUEST_ID) /\
  (isRunning (this w) = true -> frameRequestId (this w) <> INVALID_REQUEST_ID) /\
  (isPaused (this w) = true -> isRunning (this w) = false).

(** A running controller whose handle is the sentinel and whose frame source
    hands out nothing else. *)
Definition sentinelBound (w : World) : Prop :=
  isRunning (this w) = true /\ isPaused (this w) = false /\
  frameRequestId (this w) = INVALID_REQUEST_ID /\
  (forall k, requestFrame (this w) k = INVALID_REQUEST_ID).

(** [v] is a stopped controller on which nothing has happened since [w]: no
    call to the host, no step call, no change to the schedule state or the
    accumulators. *)
Definition idleSince (w v : World) : Prop :=
  isRunning (this v) = false /\
  trace v = trace w /\
  requests v = requests w /\
  frameRequestId (this v) = frameRequestId (this w) /\
  elapsedTimeInMilliseconds (this v) = elapsedTimeInMilliseconds (this w) /\
  startTimestamp (this v) = startTimestamp (this w).

(** Actions that call none of [start], [stop], [pause]. *)
Definition quiet (a : Action) : Prop :=
  match a with
  | CallStart | CallStop | CallPause => False
  | _ => True
  end.

(** Actions during which the clock does not run backwards. *)
Definition forward (a : Action) : Prop :=
  match a with
  | TimePasses dt => 0 <= dt
  | _ => True
  end.

Definition leavesRenderSteps (a : Action) : Prop :=
  match a with
  | EditRenderSteps _ => False
  | _ => True
  end.

Definition notStart (a : Action) : Prop :=
  match a with
  | CallStart => False
  | _ => True
  end.

Definition notPause (a : Action) : Prop :=
  match a with
  | CallPause => False
  | _ => True
  end.

Definition onOwner (P : Action -> Prop) (o : Op) : Prop :=
  match o with
  | Owner a => P a
  | Tick => True
  end.

(** The loop goes on in [w]: a frame that fires asks for the next one. *)
Definition keepsTicking (callback : StepId -> list Z -> World -> list Action)
  (w : World) : Prop :=
  (requests w < requests (settle (step callback w)))%nat.

(** ** Sample frame sources, steps and worlds *)

(** Handles 1, 2, 3, ... as a browser hands them out. *)
Definition countingSource : FrameSource := fun k => Z.of_nat k + 1.

(** A frame source whose handles are all -1. *)
Definition sentinelSource : FrameSource := fun _ => -1.

Definition noSteps : StepId -> list Z -> World -> list Action :=
  fun _ _ _ => [].

(** Step 0 logs U and step 1 logs R. *)
Definition loggingSteps : StepId -> list Z -> World -> list Action :=
  fun s _ _ =>
    match s with
    | O => [ConsoleLog "U"]
    | S O => [ConsoleLog "R"]
    | _ => []
    end.

(** Step 0 registers step 2 as a render step; the others do nothing. *)
Definition registeringSteps : StepId -> list Z -> World -> list Action :=
  fun s _ _ =>
    match s with
    | O => [EditRenderSteps (fun l => l ++ [2%nat])]
    | _ => []
    end.

(** Step 0 reverses the render list; the others do nothing. *)
Definition reorderingSteps : StepId -> list Z -> World -> list Action :=
  fun s _ _ =>
    match s with
    | O => [EditRenderSteps (@rev StepId)]
    | _ => []
    end.

(** A controller built with the default budget, given its steps and started
    at clock reading 1000. *)
Definition startedWorld (source : FrameSource) (us rs : list StepId) : World :=
  start (modify (set_renderSteps rs)
           (modify (set_updateSteps us)
              (fresh (newController source ALLOWED_OVERFLOW_FRAMES) 1000))).

Definition afterMs (dt : Z) (w : World) : World :=
  settle (perform (TimePasses dt) w).

(** One update step and one render step; the frame fires 16 ms after the
    start, or 200 ms after it. *)
Definition timelyFrame : World :=
  afterMs 16 (startedWorld countingSource [0%nat] [1%nat]).

Definition lateFrame : World :=
  afterMs 200 (startedWorld countingSource [0%nat] [1%nat]).

(** An update step and two render steps; the frame fires 16 ms after the
    start. *)
Definition twoRenderFrame : World :=
  afterMs 16 (startedWorld countingSource [0%nat] [1%nat; 2%nat]).

(** A controller whose frame source hands out -1, built, given steps and
    started. *)
Definition sentinelFrame : World :=
  afterMs 16 (startedWorld sentinelSource [0%nat] [1%nat]).

(** A controller with one update and one render step, just built. *)
Definition builtWorld : World :=
  modify (set_renderSteps [1%nat])
    (modify (set_updateSteps [0%nat])
       (fresh (newController countingSource ALLOWED_OVERFLOW_FRAMES) 1000)).

(** The frames of the scenario of the specification: gaps of 16, 16, 200
    and 16 ms. *)
Definition scenarioFrames : list Op :=
  [Owner (TimePasses 16); Tick; Owner (TimePasses 16); Tick;
   Owner (TimePasses 200); Tick; Owner (TimePasses 16); Tick].

(** [start()], then what [ops] describes, then [pause()]. *)
Definition pausedAfter (callback : StepId -> list Z -> World -> list Action)
  (ops : list Op) (w : World) : World :=
  pause (run callback ops (start w)).

(** ... and then [start()] again. *)
Definition resumedAfter (callback : StepId -> list Z -> World -> list Action)
  (ops : list Op) (w : World) : World :=
  start (pausedAfter callback ops w).


(** ** Further vocabulary: the schedule and the accounting *)

(** The handle of the last frame request in a trace. *)
Definition lastRequested (tr : list Event) : option Z :=
  fold_left
    (fun acc e => match e with Requested h => Some h | _ => acc end)
    tr None.

(** Calls out to the host. *)
Definition isHostCall (e : Event) : bool := negb (isStepCall e).

(** While the controller runs, [frameRequestId] is the handle of the last
    frame request. *)
Definition holdsLatest (w : World) : Prop :=
  isRunning (this w) = true ->
  lastRequested (trace w) = Some (frameRequestId (this w)).

(** No handle of the frame source collides with the sentinel, and the
    controller holds a handle exactly while it runs. *)
Definition scheduleConsistent (w : World) : Prop :=
  (forall k, requestFrame (this w) k <> INVALID_REQUEST_ID) /\
  (isRunning (this w) = true -> frameRequestId (this w) <> INVALID_REQUEST_ID) /\
  (isRunning (this w) = false -> frameRequestId (this w) = INVALID_REQUEST_ID).

(** A step call whose arguments are those of a render step (none) or those
    of an update step whose elapsed time lies between 0 and [bound]. *)
Definition boundedCall (bound : Js.Integral) (e : Event) : Prop :=
  match e with
  | Called _ [] => True
  | Called _ [elapsed] => 0 <= elapsed /\ Js.gt elapsed bound = false
  | Called _ _ => False
  | _ => True
  end.

Definition notThrow (a : Action) : Prop :=
  match a with
  | Throw => False
  | _ => True
  end.

Definition notStop (a : Action) : Prop :=
  match a with
  | CallStop => False
  | _ => True
  end.

(** What a step does in the runs of the accounting bound: it calls none of
    the lifecycle methods, does not turn the clock back and does not raise. *)
Definition steady (a : Action) : Prop := quiet a /\ forward a /\ notThrow a.

(** What the owner does in those runs: anything but [stop()], with the clock
    not turned back. *)
Definition unstopped (a : Action) : Prop := forward a /\ notStop a.

(** The accumulator is covered by the wall-clock time between
    [startTimestamp] and [lastTimestamp]; a controller that was never started
    has accumulated nothing. *)
Definition withinWallClock (w : World) : Prop :=
  (isRunning (this w) = false /\ isPaused (this w) = false /\
   elapsedTimeInMilliseconds (this w) <= 0) \/
  ((isRunning (this w) = true \/ isPaused (this w) = true) /\
   elapsedTimeInMilliseconds (this w)
     <= lastTimestamp (this w) - startTimestamp (this w) /\
   lastTimestamp (this w) <= now w).

(** What a tick that a step cuts short leaves behind when the steps call no
    lifecycle method: the controller runs on, the next frame is requested
    and its handle kept, the accumulator is charged, [lastTimestamp] is not
    moved. *)
Definition cutShort (w v : World) : Prop :=
  isRunning (this v) = true /\ isPaused (this v) = false /\
  requests v = S (requests w) /\
  frameRequestId (this v) = requestFrame (this w) (requests w) /\
  lastTimestamp (this v) = lastTimestamp (this w) /\
  elapsedTimeInMilliseconds (this v)
    = elapsedTimeInMilliseconds (this w) + elapsedSinceLast w.

(** The trace of [v] is that of [w], then the request of the tick, then
    step calls only; one frame was requested and its handle is kept. *)
Definition rearmedOnce (w v : World) : Prop :=
  requests v = S (requests w) /\
  frameRequestId (this v) = requestFrame (this w) (requests w) /\
  exists made,
    trace v = trace w ++ Requested (requestFrame (this w) (requests w)) :: made /\
    stepCalls made = made.


(** Step 0 raises; the others log as in [loggingSteps]. *)
Definition raisingSteps : StepId -> list Z -> World -> list Action :=
  fun s _ _ =>
    match s with
    | O => [ConsoleLog "U"; Throw]
    | S O => [ConsoleLog "R"]
    | _ => []
    end.

(** ** The controller before the frame source was injected *)

(** The earlier [LoopController] calls the host's [requestAnimationFrame]
    where the current one calls [this.requestFrame]; with the host's function
    in the [requestFrame] field its [start()] and [stop()] are the ones
    above, statement by statement.  It has no [isPaused] initialiser (the
    property is read as falsy until [pause()] sets it, here [false]), and its
    [pause()] has no guard. *)
Module Earlier.

Definition pause (w : World) : World :=
  let w1 := stop w in
  modify (set_isPaused true) w1.

End Earlier.

(** ** GamePadAdapter *)

Module Adapter.

(** What the adapter reads of a gamepad when it lists the connected ones. *)
Record Gamepad := mkGamepad {
  id : string;
  connected : bool
}.

(** The two arrow functions the adapter registers. *)
Inductive Handler :=
| onGamepadConnect
| onGamepadDisconnect.

(** The host: whether [navigator.getGamepads] exists, what it returns (a
    list whose entries may be [null]), and the listeners added to
    [window]. *)
Record Host := mkHost {
  hasGetGamepads : bool;
  getGamepads : list (option Gamepad);
  listeners : list (string * Handler)
}.

Record State := mkState {
  host : Host;
  connectedIds : list string
}.

Definition DID_CONNECT : string := "gamepadconnected".
Definition DID_DISCONNECT : string := "gamepaddisconnected".

(** [t.Nil.is(gamepad)]: the entry is [null] or [undefined]. *)
Definition Nil_is (g : option Gamepad) : bool :=
  match g with
  | None => true
  | Some _ => false
  end.

(** The predicate of the filter in [updateConnectedGamepads]:
    [!t.Nil.is(gamepad) && gamepad.connected]. *)
Definition isConnected (g : option Gamepad) : bool :=
  negb (Nil_is g) && match g with Some p => connected p | None => false end.

(** lodash's [map] with the callback [(gamepad) => gamepad.id]: reading [id]
    of a [null] entry raises. *)
Fixpoint mapIds (l : list (option Gamepad)) : Thrown + list string :=
  match l with
  | [] => inr []
  | None :: _ => inl (TypeError "Cannot read property 'id' of null")
  | Some p :: rest =>
      match mapIds rest with
      | inl e => inl e
      | inr ids => inr (id p :: ids)
      end
  end.

Definition updateConnectedGamepads (s : State) : Thrown + State :=
  match mapIds (filter isConnected (getGamepads (host s))) with
  | inl e => inl e
  | inr ids => inr (mkState (host s) ids)
  end.

(** The getter [gamepads]. *)
Definition gamepads (s : State) : list (option Gamepad) :=
  filter (fun g => negb (Nil_is g)) (getGamepads (host s)).

Definition addEventListener (type : string) (h : Handler) (s : State) : State :=
  mkState
    (mkHost (hasGetGamepads (host s)) (getGamepads (host s))
       (listeners (host s) ++ [(type, h)]))
    (connectedIds s).

Definition construct (h : Host) : Thrown + State :=
  if negb (hasGetGamepads h)
  then inl (TypeError "Gamepad API is not supported")
  else
    match updateConnectedGamepads (mkState h []) with
    | inl e => inl e
    | inr s1 =>
        let s2 := addEventListener DID_CONNECT onGamepadConnect s1 in
        inr (addEventListener DID_DISCONNECT onGamepadDisconnect s2)
    end.

(** Both handlers have the same body. *)
Definition handle (h : Handler) (s : State) : Thrown + State :=
  match h with
  | onGamepadConnect => updateConnectedGamepads s
  | onGamepadDisconnect => updateConnectedGamepads s
  end.

(** The host dispatches an event of the given type: the listeners added for
    that type run in the order they were added; an exception that leaves a
    listener is reported by the host and does not reach the others. *)
Definition dispatchEvent (type : string) (s : State) : State :=
  fold_left
    (fun acc l =>
       if String.eqb (fst l) type
       then match handle (snd l) acc with
            | inr acc' => acc'
            | inl _ => acc
            end
       else acc)
    (listeners (host s)) s.

(** The host's list of gamepads changes and the host says so with an event
    of one of the two types. *)
Inductive Change :=
| Connects (pads : list (option Gamepad))
| Disconnects (pads : list (option Gamepad)).

Definition setGamepads (pads : list (option Gamepad)) (s : State) : State :=
  mkState (mkHost (hasGetGamepads (host s)) pads (listeners (host s)))
    (connectedIds s).

Definition happen (c : Change) (s : State) : State :=
  match c with
  | Connects pads => dispatchEvent DID_CONNECT (setGamepads pads s)
  | Disconnects pads => dispatchEvent DID_DISCONNECT (setGamepads pads s)
  end.

Definition sampleHost : Host :=
  mkHost true
    [Some (mkGamepad "pad-a" true); None; Some (mkGamepad "pad-b" false);
     Some (mkGamepad "pad-c" true)]
    [].

(** The ids of the entries of a list that are gamepads and connected, in
    the order of the list. *)
Definition connectedPadIds (l : list (option Gamepad)) : list string :=
  flat_map
    (fun g =>
       match g with
       | Some p => if connected p then [id p] else []
       | None => []
       end)
    l.

Definition padsOf (c : Change) : list (option Gamepad) :=
  match c with
  | Connects pads => pads
  | Disconnects pads => pads
  end.

Definition hasListener (type : string) (s : State) : bool :=
  existsb (fun l => String.eqb (fst l) type) (listeners (host s)).

(** Both events are listened to and [connectedIds] is up to date. *)
Definition inSync (s : State) : Prop :=
  hasListener DID_CONNECT s = true /\
  hasListener DID_DISCONNECT s = true /\
  connectedIds s = connectedPadIds (getGamepads (host s)).

(** The state of an adapter after the changes [cs], each announced by its
    event. *)
Definition after (cs : list Change) (s : State) : State :=
  fold_left (fun acc c => happen c acc) cs s.

End Adapter.

(** ** Vocabulary: runs in which the step lists stay as they are *)

Definition leavesLists (a : Action) : Prop :=
  match a with
  | EditUpdateSteps _ | EditRenderSteps _ => False
  | _ => True
  end.

(** An action that neither raises nor edits a step list. *)
Definition plain (a : Action) : Prop := notThrow a /\ leavesLists a.

(** The calls of one frame that runs all its steps: the update steps with
    the elapsed time, then the render steps. *)
Definition fullPass (us rs : list StepId) (elapsed : Z) : list Event :=
  calls us [elapsed] ++ calls rs [].

(** The step lists are [us] and [rs], and the step calls made since the
    trace [before] are full passes, one for each of some elapsed times. *)
Definition passesSince (before : list Event) (us rs : list StepId) (w : World)
  : Prop :=
  updateSteps (this w) = us /\ renderSteps (this w) = rs /\
  exists gaps,
    stepCalls (trace w) = stepCalls before ++ flat_map (fullPass us rs) gaps.

(** Two update steps and a render step, just built. *)
Definition threeStepWorld : World :=
  modify (set_renderSteps [2%nat])
    (modify (set_updateSteps [0%nat; 1%nat])
       (fresh (newController countingSource ALLOWED_OVERFLOW_FRAMES) 1000)).


(** ** The arithmetic of the constructor, against the reference *)

(** Sample counts: -6.75, -1 and 1e308 (the double nearest to it). *)
Definition minusSixAndThreeQuarters : Js.Double := Js.mkDouble (-27) (-2) eq_refl.

Definition minusOne : Js.Double := Js.mkDouble (-1) 0 eq_refl.

Definition tenToThe308 : Js.Double :=
  Js.mkDouble 5010420900022432 971 eq_refl.

(** The same numbers in the form of the Standard Library's specification of
    IEEE 754 arithmetic, here at the 53 bits and the exponent range of a
    double. *)
Module Reference.

Definition ofDouble (d : Js.Double) : SpecFloat.spec_float :=
  SpecFloat.binary_normalize 53 1024 (Js.mantissa d) (Js.exponent d) false.

Definition ofNumber (x : Js.Number) : SpecFloat.spec_float :=
  match x with
  | Js.Finite d => ofDouble d
  | Js.NaN => SpecFloat.S754_nan
  | Js.PosInfinity => SpecFloat.S754_infinity false
  | Js.NegInfinity => SpecFloat.S754_infinity true
  end.

Definition mul (a b : Js.Double) : SpecFloat.spec_float :=
  SpecFloat.SFmul 53 1024 (ofDouble a) (ofDouble b).

Definition div (a b : Js.Double) : SpecFloat.spec_float :=
  SpecFloat.SFdiv 53 1024 (ofDouble a) (ofDouble b).

Definition thousand : Js.Double := Js.mkDouble 1000 0 eq_refl.

Definition sixty : Js.Double := Js.mkDouble 60 0 eq_refl.

(** The double [FRAMERATE] is. *)
Definition framerate : Js.Double :=
  Js.mkDouble 4691249611844267 (-48) eq_refl.

End Reference.

(** ** Vocabulary: a loop that a step cuts short *)

(** The loop over [steps] that starts in [w] is cut short at [s]: the steps
    [done] before it have run to their end, the call of [s] raises and leaves
    the world [w'], the steps [rest] after it are not reached. *)
Definition cutAt (callback : StepId -> list Z -> World -> list Action)
  (steps : list StepId) (args : list Z) (w w' : World)
  (done : list StepId) (s : StepId) (rest : list StepId) : Prop :=
  steps = done ++ s :: rest /\
  exists v,
    forEachStep callback done args w = Normal v /\
    invoke callback s args v = Abrupt w'.

(** A controller that runs and is marked paused with the sentinel for a
    handle: every method returns at its guard and every frame is turned
    away. *)
Definition stuck (w : World) : Prop :=
  isRunning (this w) = true /\ isPaused (this w) = true /\
  frameRequestId (this w) = INVALID_REQUEST_ID.

(** The frames of the pause-and-resume samples: two frames 16 ms apart. *)
Definition twoFrames : list Op :=
  [Owner (TimePasses 16); Tick; Owner (TimePasses 16); Tick].

(** The same world with another function injected for [requestFrame]. *)
Definition withRequestFrame (source : FrameSource) (w : World) : World :=
  modify (fun c =>
            mkLoopController (isRunning c) (isPaused c) (updateSteps c)
              (renderSteps c) (startTimestamp c) (lastTimestamp c)
              (elapsedTimeInMilliseconds c) (frameRequestId c) source
              (allowedOverflowThreshold c)) w.

(** The clock is set back by 10 ms, then a frame fires. *)
Definition clockSetBack : list Op := [Owner (TimePasses (-10)); Tick].

(** A threshold below zero: a negative integer or -Infinity. *)
Definition belowZero (y : Js.Integral) : Prop :=
  match y with
  | Js.Int z => z < 0
  | Js.MinusInfinity => True
  | _ => False
  end.

(** ** Vocabulary: rounding to a double *)

(** Half a last place above the largest double: the magnitude from which on
    IEEE 754 rounds to an infinity. *)
Definition overflowBound : Q := (2 ^ 1024 - 2 ^ 970)%Q.

(** [d] is a double nearest to [x]; when another double is as near, [d] is
    the one whose mantissa (normalised, or at the exponent of the
    subnormals) is even. *)
Definition nearestDouble (x : Q) (d : Js.Double) : Prop :=
  (forall d', (Qabs (x - Js.value d) <= Qabs (x - Js.value d'))%Q) /\
  (forall d',
     ~ (Js.value d' == Js.value d)%Q ->
     (Qabs (x - Js.value d) == Qabs (x - Js.value d'))%Q ->
     Z.even (Js.mantissa d) = true /\
     (2 ^ 52 <= Z.abs (Js.mantissa d) \/ Js.exponent d = -1074)).

(** What IEEE 754 asks of the result [r] of an operation whose exact result
    is [x], in the default rounding mode. *)
Definition correctlyRounded (x : Q) (r : Js.Number) : Prop :=
  match r with
  | Js.Finite d => nearestDouble x d /\ (Qabs x < overflowBound)%Q
  | Js.PosInfinity => (overflowBound <= x)%Q
  | Js.NegInfinity => (x <= - overflowBound)%Q
  | Js.NaN => False
  end.

(** * Properties *)

(** ** The tick handler, case by case *)

Section TickCases.

Variable callback : StepId -> list Z -> World -> list Action.

Lemma step_not_running (w : World) :
  isRunning (this w) = false -> step callback w = Normal w.
Proof. intros H. unfold step. now rewrite H. Qed.

Lemma step_paused (w : World) :
  isPaused (this w) = true -> step callback w = Normal w.
Proof. intros H. unfold step. now rewrite H, orb_true_r. Qed.

Lemma step_overflow (w : World) :
  processed w -> overflows w ->
  step callback w = Normal (modify (set_lastTimestamp (now w)) (armed w)).
Proof.
  intros [Hr Hp] Hov. unfold overflows, elapsedSinceLast in Hov.
  unfold step. rewrite Hr, Hp.
  cbn [negb orb callRequestFrame modify this now getCurrentTime
       lastTimestamp allowedOverflowThreshold set_frameRequestId].
  rewrite Hov. reflexivity.
Qed.

Lemma step_in_time (w : World) :
  processed w -> ~ overflows w ->
  step callback w =
    (do w4 <- update callback (elapsedSinceLast w) (accounted w) ;;
     do w5 <- render callback w4 ;;
     Normal (modify (set_lastTimestamp (now w)) w5)).
Proof.
  intros [Hr Hp] Hov. unfold overflows, elapsedSinceLast in Hov.
  unfold step. rewrite Hr, Hp.
  cbn [negb orb callRequestFrame modify this now getCurrentTime
       lastTimestamp allowedOverflowThreshold set_frameRequestId].
  destruct (Js.gt (now w - lastTimestamp (this w))
              (allowedOverflowThreshold (this w))).
  - exfalso. now apply Hov.
  - reflexivity.
Qed.

End TickCases.

(** ** Step calls in the trace *)

Lemma stepCalls_app (t1 t2 : list Event) :
  stepCalls (t1 ++ t2) = stepCalls t1 ++ stepCalls t2.
Proof. apply filter_app. Qed.

Lemma start_stepCalls (w : World) :
  stepCalls (trace (start w)) = stepCalls (trace w).
Proof.
  unfold start. destruct (isRunning (this w)); [reflexivity|].
  cbn. destruct (isPaused (this w)); cbn;
    rewrite stepCalls_app; cbn; apply app_nil_r.
Qed.

Lemma stop_stepCalls (w : World) :
  stepCalls (trace (stop w)) = stepCalls (trace w).
Proof.
  unfold stop.
  destruct (negb (isRunning (this w))
            || (frameRequestId (this w) =? INVALID_REQUEST_ID));
    [reflexivity|].
  cbn. rewrite stepCalls_app. cbn. apply app_nil_r.
Qed.

Lemma pause_stepCalls (w : World) :
  stepCalls (trace (pause w)) = stepCalls (trace w).
Proof.
  unfold pause. destruct (negb (isRunning (this w)) || isPaused (this w));
    [reflexivity|].
  cbn. apply stop_stepCalls.
Qed.

Lemma perform_stepCalls (a : Action) (w : World) :
  stepCalls (trace (settle (perform a w))) = stepCalls (trace w).
Proof.
  destruct a; cbn;
    auto using start_stepCalls, stop_stepCalls, pause_stepCalls.
Qed.

Lemma performAll_stepCalls (body : list Action) (w : World) :
  stepCalls (trace (settle (performAll body w))) = stepCalls (trace w).
Proof.
  revert w. induction body as [|a rest IH]; intros w; [reflexivity|].
  cbn. pose proof (perform_stepCalls a w) as Ha.
  destruct (perform a w) as [w'|w']; cbn in *.
  - rewrite IH. exact Ha.
  - exact Ha.
Qed.

Lemma accounted_updateSteps (w : World) :
  updateSteps (this (accounted w)) = updateSteps (this w).
Proof. reflexivity. Qed.

Lemma accounted_stepCalls (w : World) :
  stepCalls (trace (accounted w)) = stepCalls (trace w).
Proof.
  unfold accounted, armed, modify, callRequestFrame. cbn [trace snd].
  rewrite stepCalls_app. apply app_nil_r.
Qed.

Section Phases.

Variable callback : StepId -> list Z -> World -> list Action.

Lemma invoke_stepCalls (s : StepId) (args : list Z) (w : World) :
  stepCalls (trace (settle (invoke callback s args w))) =
  stepCalls (trace w) ++ [Called s args].
Proof.
  unfold invoke. rewrite performAll_stepCalls. cbn.
  now rewrite stepCalls_app.
Qed.

(** A loop that is not cut short calls exactly the functions of the list
    it was started on, in the order of the list. *)
Lemma forEachStep_calls (steps : list StepId) (args : list Z) (w w' : World) :
  forEachStep callback steps args w = Normal w' ->
  stepCalls (trace w') = stepCalls (trace w) ++ calls steps args.
Proof.
  revert w. induction steps as [|s rest IH]; intros w H; cbn in H.
  - injection H as <-. now rewrite app_nil_r.
  - pose proof (invoke_stepCalls s args w) as Hs.
    destruct (invoke callback s args w) as [v|v]; cbn in H; [|discriminate H].
    rewrite (IH _ H). cbn in Hs. rewrite Hs. cbn.
    now rewrite <- app_assoc.
Qed.

(** A loop that a step cuts short by raising has called a non-empty prefix
    of its list. *)
Lemma forEachStep_abrupt (steps : list StepId) (args : list Z) (w w' : World) :
  forEachStep callback steps args w = Abrupt w' ->
  exists called skipped, steps = called ++ skipped /\ called <> [] /\
    stepCalls (trace w') = stepCalls (trace w) ++ calls called args.
Proof.
  revert w. induction steps as [|s rest IH]; intros w H; cbn in H.
  - discriminate H.
  - pose proof (invoke_stepCalls s args w) as Hs.
    destruct (invoke callback s args w) as [v|v]; cbn in H, Hs.
    + destruct (IH _ H) as (called & skipped & -> & _ & Ht).
      exists (s :: called), skipped. repeat split; [discriminate|].
      rewrite Ht, Hs. cbn. now rewrite <- app_assoc.
    + injection H as <-. exists [s], rest. repeat split; [discriminate|].
      exact Hs.
Qed.

(** The step calls of a tick that is processed in time and that no step
    cuts short. *)
Lemma step_in_time_calls (w w' : World) :
  processed w -> ~ overflows w ->
  step callback w = Normal w' ->
  exists wm,
    update callback (elapsedSinceLast w) (accounted w) = Normal wm /\
    stepCalls (trace w') =
      stepCalls (trace w)
      ++ calls (updateSteps (this w)) [elapsedSinceLast w]
      ++ calls (renderSteps (this wm)) [].
Proof.
  intros Hp Hov H. rewrite (step_in_time _ _ Hp Hov) in H.
  destruct (update callback (elapsedSinceLast w) (accounted w)) as [wm|wm] eqn:Hu;
    cbn in H; [|discriminate H].
  exists wm. split; [reflexivity|].
  destruct (render callback wm) as [wr|wr] eqn:Hr; cbn in H; [|discriminate H].
  injection H as <-. unfold modify. cbn [trace].
  unfold render in Hr. rewrite (forEachStep_calls _ _ _ _ Hr).
  unfold update in Hu. rewrite (forEachStep_calls _ _ _ _ Hu).
  now rewrite accounted_updateSteps, accounted_stepCalls, <- app_assoc.
Qed.

End Phases.

(** ** Invariants carried through callbacks *)

Section Invariance.

Variable callback : StepId -> list Z -> World -> list Action.
Variable P : World -> Prop.
Variable ok : Action -> Prop.

Hypothesis P_perform :
  forall a w, ok a -> P w -> P (settle (perform a w)).
Hypothesis P_record : forall e w, P w -> P (record e w).

Lemma performAll_invariant (body : list Action) (w : World) :
  Forall ok body -> P w -> P (settle (performAll body w)).
Proof.
  intros Hb. revert w. induction Hb as [|a rest Ha _ IH]; intros w Hw.
  - exact Hw.
  - cbn. pose proof (P_perform a w Ha Hw) as Hw'.
    destruct (perform a w) as [w'|w']; cbn in *; auto.
Qed.

Lemma forEachStep_invariant (steps : list StepId) (args : list Z) (w : World) :
  (forall s, In s steps -> forall v, Forall ok (callback s args v)) ->
  P w -> P (settle (forEachStep callback steps args w)).
Proof.
  revert w. induction steps as [|s rest IH]; intros w Hcb Hw.
  - exact Hw.
  - cbn.
    assert (Hs : P (settle (invoke callback s args w))).
    { unfold invoke. apply performAll_invariant.
      - apply Hcb. now left.
      - now apply P_record. }
    destruct (invoke callback s args w) as [v|v]; cbn in *.
    + apply IH; [|exact Hs]. intros s' Hin. apply Hcb. now right.
    + exact Hs.
Qed.

Hypothesis callbacks_ok : forall s args v, Forall ok (callback s args v).

(** A tick processed in time keeps what the accounting establishes, the
    callbacks keep and the closing assignment to [lastTimestamp] keeps. *)
Lemma step_in_time_invariant (w : World) :
  processed w -> ~ overflows w ->
  P (accounted w) ->
  (forall v, P v -> P (modify (set_lastTimestamp (now w)) v)) ->
  P (settle (step callback w)).
Proof.
  intros Hp Hov Hacc Hfin. rewrite (step_in_time _ _ Hp Hov).
  assert (Hu : P (settle (update callback (elapsedSinceLast w) (accounted w)))).
  { unfold update. apply forEachStep_invariant; auto. }
  destruct (update callback (elapsedSinceLast w) (accounted w)) as [wm|wm];
    cbn in *; [|exact Hu].
  assert (Hr : P (settle (render callback wm))).
  { unfold render. apply forEachStep_invariant; auto. }
  destruct (render callback wm) as [wr|wr]; cbn in *; auto.
Qed.

End Invariance.

Lemma processed_dec (w : World) : processed w \/ step_skips w.
Proof.
  unfold processed, step_skips.
  destruct (isRunning (this w)), (isPaused (this w)); auto.
Qed.

Lemma overflows_dec (w : World) : overflows w \/ ~ overflows w.
Proof.
  unfold overflows.
  destruct (Js.gt (elapsedSinceLast w) (allowedOverflowThreshold (this w)));
    [now left | right; discriminate].
Qed.

Lemma step_skipped (callback : StepId -> list Z -> World -> list Action)
  (w : World) :
  step_skips w -> step callback w = Normal w.
Proof.
  intros [H | H]; [now apply step_not_running | now apply step_paused].
Qed.

(** ** Time and the accumulator *)

Lemma perform_onwards (b : World) (a : Action) (w : World) :
  forward a -> onwards b w -> onwards b (settle (perform a w)).
Proof.
  unfold onwards, clockSane. intros Ha (Hs & Hn & He).
  destruct a; cbn in *.
  - unfold start. destruct (isRunning (this w)) eqn:Hr; [auto|].
    cbn. destruct (isPaused (this w)); cbn; repeat split; auto; lia.
  - unfold stop.
    destruct (negb (isRunning (this w))
              || (frameRequestId (this w) =? INVALID_REQUEST_ID)); [auto|].
    cbn. repeat split; auto. discriminate.
  - unfold pause. destruct (negb (isRunning (this w)) || isPaused (this w));
      [auto|].
    unfold stop.
    destruct (negb (isRunning (this w))
              || (frameRequestId (this w) =? INVALID_REQUEST_ID));
      cbn; repeat split; auto. discriminate.
  - auto.
  - auto.
  - auto.
  - repeat split; [|lia|lia]. intros Hr. specialize (Hs Hr). lia.
  - auto.
Qed.

Lemma record_onwards (b : World) (e : Event) (w : World) :
  onwards b w -> onwards b (record e w).
Proof. unfold onwards, clockSane. cbn. auto. Qed.

Lemma onwards_refl (w : World) : clockSane w -> onwards w w.
Proof. unfold onwards. intros H. repeat split; [exact H|lia|lia]. Qed.

Lemma onwards_trans (a b c : World) : onwards a b -> onwards b c -> onwards a c.
Proof. unfold onwards. intros (_ & ? & ?) (? & ? & ?). repeat split; [assumption|lia|lia]. Qed.

Section Timing.

Variable callback : StepId -> list Z -> World -> list Action.
Hypothesis callbacks_forward :
  forall s args v, Forall forward (callback s args v).

Lemma step_onwards (w : World) :
  clockSane w -> onwards w (settle (step callback w)).
Proof.
  intros Hs. destruct (processed_dec w) as [Hp | Hskip].
  - destruct (overflows_dec w) as [Hov | Hin].
    + rewrite (step_overflow _ _ Hp Hov). unfold onwards, clockSane. cbn.
      repeat split; lia.
    + apply (step_in_time_invariant callback (onwards w) forward
               (perform_onwards w) (record_onwards w) callbacks_forward
               w Hp Hin).
      * unfold onwards, clockSane in *. cbn. destruct Hp as [Hr _].
        specialize (Hs Hr). unfold elapsedSinceLast.
        repeat split; auto; lia.
      * unfold onwards, clockSane. cbn. intros v (_ & Hn & He).
        repeat split; auto.
  - rewrite (step_skipped _ _ Hskip). now apply onwards_refl.
Qed.

Lemma apply_onwards (o : Op) (w : World) :
  onOwner forward o -> clockSane w -> onwards w (apply callback o w).
Proof.
  destruct o as [a|]; cbn; intros Ho Hs.
  - apply perform_onwards; [exact Ho | now apply onwards_refl].
  - now apply step_onwards.
Qed.

Lemma run_onwards (ops : list Op) (w : World) :
  Forall (onOwner forward) ops -> clockSane w ->
  onwards w (run callback ops w).
Proof.
  intros Hops. revert w. induction Hops as [|o rest Ho _ IH]; intros w Hs.
  - now apply onwards_refl.
  - cbn. pose proof (apply_onwards o w Ho Hs) as H1.
    apply onwards_trans with (b := apply callback o w); [exact H1|].
    apply IH. apply H1.
Qed.

End Timing.

(** ** A run in progress *)

Lemma perform_runningSince (t0 : Z) (a : Action) (w : World) :
  quiet a -> runningSince t0 w -> runningSince t0 (settle (perform a w)).
Proof. destruct a; cbn; intros Ha H; (contradiction || exact H). Qed.

Lemma record_runningSince (t0 : Z) (e : Event) (w : World) :
  runningSince t0 w -> runningSince t0 (record e w).
Proof. auto. Qed.

Section Running.

Variable callback : StepId -> list Z -> World -> list Action.
Hypothesis callbacks_quiet :
  forall s args v, Forall quiet (callback s args v).

Lemma step_runningSince (t0 : Z) (w : World) :
  runningSince t0 w -> runningSince t0 (settle (step callback w)).
Proof.
  intros Hw. assert (Hp : processed w) by (destruct Hw as (? & ? & _); now split).
  destruct (overflows_dec w) as [Hov | Hin].
  - rewrite (step_overflow _ _ Hp Hov). exact Hw.
  - apply (step_in_time_invariant callback (runningSince t0) quiet
             (perform_runningSince t0) (record_runningSince t0)
             callbacks_quiet w Hp Hin).
    + exact Hw.
    + intros v Hv. exact Hv.
Qed.

Lemma run_runningSince (t0 : Z) (ops : list Op) (w : World) :
  Forall (onOwner quiet) ops -> runningSince t0 w ->
  runningSince t0 (run callback ops w).
Proof.
  intros Hops. revert w. induction Hops as [|o rest Ho _ IH]; intros w Hw.
  - exact Hw.
  - cbn. apply IH. destruct o as [a|]; cbn in *.
    + now apply perform_runningSince.
    + now apply step_runningSince.
Qed.

End Running.

(** ** The two flags *)

Lemma perform_lifecycleConsistent (a : Action) (w : World) :
  True -> lifecycleConsistent w -> lifecycleConsistent (settle (perform a w)).
Proof.
  unfold lifecycleConsistent.
  destruct w as [[r p us rs st lt el fid rf thr] n rq co tr]. cbn.
  intros _ (Hv & Hh & Hx).
  destruct a; cbn; auto.
  - unfold start. cbn. destruct r; cbn; [auto|].
    destruct p; cbn; repeat split; auto; intros; discriminate.
  - unfold stop. cbn. destruct r; cbn; [|auto].
    destruct (Z.eqb_spec fid INVALID_REQUEST_ID); cbn; [auto|].
    repeat split; auto; intros; discriminate.
  - unfold pause. cbn. destruct r; cbn; [|auto].
    destruct p; cbn; [auto|].
    unfold stop. cbn.
    destruct (Z.eqb_spec fid INVALID_REQUEST_ID) as [E|E].
    + exfalso. now apply Hh.
    + cbn. repeat split; auto; intros; discriminate.
Qed.

Lemma record_lifecycleConsistent (e : Event) (w : World) :
  lifecycleConsistent w -> lifecycleConsistent (record e w).
Proof. auto. Qed.

Section Flags.

Variable callback : StepId -> list Z -> World -> list Action.

Lemma step_lifecycleConsistent (w : World) :
  lifecycleConsistent w -> lifecycleConsistent (settle (step callback w)).
Proof.
  intros Hw. destruct (processed_dec w) as [Hp | Hskip].
  - assert (Ha : lifecycleConsistent (armed w)).
    { destruct Hw as (Hv & Hh & Hx). unfold lifecycleConsistent. cbn.
      repeat split; auto. }
    destruct (overflows_dec w) as [Hov | Hin].
    + rewrite (step_overflow _ _ Hp Hov). exact Ha.
    + apply (step_in_time_invariant callback lifecycleConsistent
               (fun _ => True) perform_lifecycleConsistent
               record_lifecycleConsistent) with (w := w); auto.
      intros s args v. apply Forall_forall. auto.
  - now rewrite (step_skipped _ _ Hskip).
Qed.

(** With a frame source that never hands out -1, no sequence of calls and
    ticks leaves the controller both paused and running. *)
Lemma run_lifecycleConsistent (ops : list Op) (w : World) :
  lifecycleConsistent w -> lifecycleConsistent (run callback ops w).
Proof.
  revert w. induction ops as [|o rest IH]; intros w Hw; [exact Hw|].
  cbn. apply IH. destruct o as [a|]; cbn.
  - now apply perform_lifecycleConsistent.
  - now apply step_lifecycleConsistent.
Qed.

(** ** A stopped controller *)

Lemma apply_idleSince (b : World) (o : Op) (w : World) :
  onOwner notStart o -> idleSince b w -> idleSince b (apply callback o w).
Proof.
  intros Ho Hw. assert (Hr : isRunning (this w) = false) by apply Hw.
  destruct o as [a|]; cbn.
  - destruct a; cbn in *; try exact Hw.
    + contradiction.
    + unfold stop. now rewrite Hr.
    + unfold pause. now rewrite Hr.
  - now rewrite step_not_running.
Qed.

Lemma run_idleSince (b : World) (ops : list Op) (w : World) :
  Forall (onOwner notStart) ops -> idleSince b w ->
  idleSince b (run callback ops w).
Proof.
  intros Hops. revert w. induction Hops as [|o rest Ho _ IH]; intros w Hw.
  - exact Hw.
  - cbn. apply IH. now apply apply_idleSince.
Qed.

End Flags.

Lemma fresh_lifecycleConsistent (source : FrameSource) (n : Js.Double) (t : Z) :
  (forall k, source k <> INVALID_REQUEST_ID) ->
  lifecycleConsistent (fresh (newController source n) t).
Proof.
  intros H. unfold lifecycleConsistent. cbn.
  repeat split; auto; discriminate.
Qed.

Lemma flags_exclusive_without_sentinel_handles
  (callback : StepId -> list Z -> World -> list Action)
  (source : FrameSource) (n : Js.Double) (t : Z) (ops : list Op) :
  (forall k, source k <> INVALID_REQUEST_ID) ->
  isPaused (this (run callback ops (fresh (newController source n) t))) = true ->
  isRunning (this (run callback ops (fresh (newController source n) t))) = false.
Proof.
  intros Hsrc.
  apply (run_lifecycleConsistent callback ops).
  now apply fresh_lifecycleConsistent.
Qed.

(** ** What callbacks leave alone *)

Lemma perform_renderSteps (l : list StepId) (a : Action) (w : World) :
  leavesRenderSteps a ->
  renderSteps (this w) = l -> renderSteps (this (settle (perform a w))) = l.
Proof.
  destruct w as [[r p us rs st lt el fid rf thr] n rq co tr]. cbn.
  intros Ha <-. destruct a; cbn in *; try reflexivity.
  - unfold start. cbn. destruct r; cbn; [reflexivity|]. now destruct p.
  - unfold stop. cbn.
    now destruct (negb r || (fid =? INVALID_REQUEST_ID)).
  - unfold pause, stop. cbn. destruct (negb r || p); cbn; [reflexivity|].
    now destruct (negb r || (fid =? INVALID_REQUEST_ID)).
  - contradiction.
Qed.

Lemma perform_requests (k : nat) (a : Action) (w : World) :
  True -> (k <= requests w)%nat -> (k <= requests (settle (perform a w)))%nat.
Proof.
  destruct w as [[r p us rs st lt el fid rf thr] n rq co tr]. cbn.
  intros _ Hk. destruct a; cbn; try exact Hk.
  - unfold start. cbn. destruct r; cbn; [exact Hk|]. destruct p; cbn; lia.
  - unfold stop. cbn.
    now destruct (negb r || (fid =? INVALID_REQUEST_ID)).
  - unfold pause, stop. cbn. destruct (negb r || p); cbn; [exact Hk|].
    now destruct (negb r || (fid =? INVALID_REQUEST_ID)).
Qed.

(** A processed tick always asks for the next frame. *)
Lemma processed_keepsTicking
  (callback : StepId -> list Z -> World -> list Action) (w : World) :
  processed w -> keepsTicking callback w.
Proof.
  intros Hp. unfold keepsTicking.
  destruct (overflows_dec w) as [Hov | Hin].
  - rewrite (step_overflow _ _ Hp Hov). cbn. lia.
  - apply (step_in_time_invariant callback
             (fun v => (S (requests w) <= requests v)%nat) (fun _ => True)
             (perform_requests (S (requests w)))) with (w := w); auto.
    intros s args v. apply Forall_forall. auto.
Qed.

(** ** A handle that equals the sentinel *)

Lemma perform_sentinelBound (a : Action) (w : World) :
  notPause a -> sentinelBound w -> sentinelBound (settle (perform a w)).
Proof.
  destruct w as [[r p us rs st lt el fid rf thr] n rq co tr].
  unfold sentinelBound. cbn. intros Ha (-> & -> & -> & Hsrc).
  destruct a; cbn in *; try contradiction; repeat split; auto.
Qed.

Lemma record_sentinelBound (e : Event) (w : World) :
  sentinelBound w -> sentinelBound (record e w).
Proof. auto. Qed.

Section Sentinel.

Variable callback : StepId -> list Z -> World -> list Action.
Hypothesis callbacks_notPause :
  forall s args v, Forall notPause (callback s args v).

Lemma step_sentinelBound (w : World) :
  sentinelBound w -> sentinelBound (settle (step callback w)).
Proof.
  intros Hw. assert (Hp : processed w) by (destruct Hw as (? & ? & _); now split).
  assert (Ha : sentinelBound (armed w)).
  { destruct Hw as (Hr & Hpa & Hid & Hsrc). unfold sentinelBound. cbn.
    repeat split; auto. }
  destruct (overflows_dec w) as [Hov | Hin].
  - rewrite (step_overflow _ _ Hp Hov). exact Ha.
  - apply (step_in_time_invariant callback sentinelBound notPause
             perform_sentinelBound record_sentinelBound callbacks_notPause
             w Hp Hin).
    + exact Ha.
    + intros v Hv. exact Hv.
Qed.

Lemma run_sentinelBound (ops : list Op) (w : World) :
  Forall (onOwner notPause) ops -> sentinelBound w ->
  sentinelBound (run callback ops w).
Proof.
  intros Hops. revert w. induction Hops as [|o rest Ho _ IH]; intros w Hw.
  - exact Hw.
  - cbn. apply IH. destruct o as [a|]; cbn in *.
    + now apply perform_sentinelBound.
    + now apply step_sentinelBound.
Qed.

End Sentinel.

(** ** The scenario of the specification *)

(** Built with ten overflow frames (threshold 167 ms) and fired with gaps of
    16, 16, 200 and 16 ms: frames 1, 2 and 4 run their steps, frame 3 is
    discarded, and the accumulator ends at 48 ms. *)
Example scenario_of_the_specification :
  allowedOverflowThreshold (this (startedWorld countingSource [0%nat] [1%nat]))
    = Js.Int 167 /\
  elapsedTimeInMilliseconds
    (this (run loggingSteps scenarioFrames
             (startedWorld countingSource [0%nat] [1%nat]))) = 48 /\
  stepCalls
    (trace (run loggingSteps scenarioFrames
              (startedWorld countingSource [0%nat] [1%nat])))
    = [Called 0%nat [16]; Called 1%nat [];
       Called 0%nat [16]; Called 1%nat [];
       Called 0%nat [16]; Called 1%nat []] /\
  lastTimestamp
    (this (run loggingSteps scenarioFrames
             (startedWorld countingSource [0%nat] [1%nat]))) = 1248.
Proof. repeat split; vm_compute; reflexivity. Qed.

(** * The claims *)

(** ** Rounding to a double *)

Lemma pow2_nonneg (e : Z) : 0 <= e -> (2 ^ e == inject_Z (2 ^ e))%Q.
Proof. intros H. now rewrite Zpower_Qpower by exact H. Qed.

Lemma pow2_pos (e : Z) : (0 < 2 ^ e)%Q.
Proof. apply Qpower_0_lt. reflexivity. Qed.

Lemma pow2_add (e1 e2 : Z) : (2 ^ (e1 + e2) == 2 ^ e1 * 2 ^ e2)%Q.
Proof. apply Qpower_plus. discriminate. Qed.

Lemma pow2_le (e1 e2 : Z) : e1 <= e2 -> (2 ^ e1 <= 2 ^ e2)%Q.
Proof. intros H. apply Qpower_le_compat_l; [exact H | discriminate]. Qed.

Lemma pow2_neg (e : Z) : (2 ^ e * 2 ^ (- e) == 1)%Q.
Proof. rewrite <- pow2_add. now replace (e + - e) with 0 by lia. Qed.

(** The number a double stands for is its mantissa times two to its
    exponent. *)
Lemma value_scaled (d : Js.Double) :
  (Js.value d == inject_Z (Js.mantissa d) * 2 ^ Js.exponent d)%Q.
Proof.
  unfold Js.value. destruct (Z.leb_spec 0 (Js.exponent d)) as [H | H].
  - now rewrite inject_Z_mult, pow2_nonneg.
  - assert (Hp : 0 < 2 ^ (- Js.exponent d)) by (apply Z.pow_pos_nonneg; lia).
    rewrite Qmake_Qdiv, Z2Pos.id by exact Hp.
    rewrite <- pow2_nonneg by lia.
    unfold Qdiv. apply Qmult_comp; [reflexivity|].
    rewrite <- Qpower_opp. now rewrite Z.opp_involutive.
Qed.

(** [floorLog2 p q] is the binade of [p / q]. *)
Lemma floorLog2_bounds (p q : Z) :
  0 < p -> 0 < q ->
  (2 ^ Js.floorLog2 p q * inject_Z q <= inject_Z p /\
   inject_Z p < 2 ^ (Js.floorLog2 p q + 1) * inject_Z q)%Q.
Proof.
  intros Hp Hq. unfold Js.floorLog2.
  destruct (Z.leb_spec q p) as [Hqp | Hpq].
  - assert (Hd : 1 <= p / q) by (apply Z.div_le_lower_bound; lia).
    pose proof (Z.log2_nonneg (p / q)) as HL.
    destruct (Z.log2_spec (p / q)) as [Hlo Hhi]; [lia|].
    pose proof (Z.div_mod p q ltac:(lia)) as Hdm.
    pose proof (Z.mod_pos_bound p q Hq) as Hr.
    set (L := Z.log2 (p / q)) in *.
    rewrite !pow2_nonneg by lia. rewrite <- !inject_Z_mult.
    rewrite <- Zle_Qle, <- Zlt_Qlt.
    replace (Z.succ L) with (L + 1) in Hhi by lia. split; nia.
  - set (c := (q + p - 1) / p).
    pose proof (Z.div_mod (q + p - 1) p ltac:(lia)) as Hdm.
    pose proof (Z.mod_pos_bound (q + p - 1) p Hp) as Hr.
    fold c in Hdm.
    assert (Hc : 2 <= c) by (apply Z.div_le_lower_bound; lia).
    destruct (Z.log2_up_spec c) as [Hlo Hhi]; [lia|].
    pose proof (Z.log2_up_pos c ltac:(lia)) as Hk.
    set (k := Z.log2_up c) in *.
    assert (H1 : q <= 2 ^ k * p) by nia.
    assert (H2 : 2 ^ (k - 1) * p < q).
    { replace (Z.pred k) with (k - 1) in Hlo by lia. nia. }
    rewrite Zle_Qle in H1. rewrite Zlt_Qlt in H2.
    rewrite inject_Z_mult in H1, H2.
    rewrite <- pow2_nonneg in H1, H2 by lia.
    pose proof (pow2_neg (- k)) as E1. rewrite Z.opp_involutive in E1.
    pose proof (pow2_neg (- k + 1)) as E2.
    replace (- (- k + 1)) with (k - 1) in E2 by lia.
    pose proof (pow2_pos (- k)) as P1. pose proof (pow2_pos (- k + 1)) as P2.
    set (u := (2 ^ (- k))%Q) in *. set (v := (2 ^ k)%Q) in *.
    set (u' := (2 ^ (- k + 1))%Q) in *. set (v' := (2 ^ (k - 1))%Q) in *.
    set (P := inject_Z p) in *. set (Q' := inject_Z q) in *.
    split.
    + apply Qle_trans with (y := (u * (v * P))%Q).
      * apply Qmult_le_l; assumption.
      * rewrite Qmult_assoc, E1. rewrite Qmult_1_l. apply Qle_refl.
    + apply Qle_lt_trans with (y := (u' * (v' * P))%Q).
      * rewrite Qmult_assoc, E2. rewrite Qmult_1_l. apply Qle_refl.
      * apply Qmult_lt_l; assumption.
Qed.

(** Rounding to the nearest integer, a tie going to the even one. *)
Lemma half_even_nearest (a b : Z) :
  0 <= a -> 0 < b ->
  let m0 := a / b in
  let r := a mod b in
  let m := if (b <? 2 * r) || ((b =? 2 * r) && Z.odd m0) then m0 + 1 else m0 in
  m0 <= m <= m0 + 1 /\
  (forall k, Z.abs (a - m * b) <= Z.abs (a - k * b)) /\
  (2 * m - 1) * b <= 2 * a <= (2 * m + 1) * b /\
  (2 * a = (2 * m + 1) * b -> Z.even m = true) /\
  (2 * a = (2 * m - 1) * b -> Z.even m = true).
Proof.
  intros Ha Hb m0 r m.
  pose proof (Z.div_mod a b ltac:(lia)) as Hdm.
  pose proof (Z.mod_pos_bound a b Hb) as Hr.
  fold m0 in Hdm. fold r in Hdm, Hr.
  assert (Hm : (m = m0 + 1 /\ (b < 2 * r \/ (b = 2 * r /\ Z.odd m0 = true))) \/
               (m = m0 /\ 2 * r <= b /\ (b = 2 * r -> Z.odd m0 = false))).
  { subst m. destruct (Z.ltb_spec b (2 * r)) as [H1 | H1]; cbn [orb].
    - left. split; [reflexivity | now left].
    - destruct (Z.eqb_spec b (2 * r)) as [H2 | H2]; cbn [andb].
      + destruct (Z.odd m0) eqn:Ho.
        * left. split; [reflexivity | now right].
        * right. repeat split; auto; lia.
      + right. repeat split; auto; lia. }
  clearbody m m0 r.
  assert (Hk : forall k,
             (k <= m0 /\ 0 <= (m0 - k) * b) \/
             (m0 + 1 <= k /\ 0 <= (k - m0 - 1) * b)).
  { intros k. destruct (Z_le_gt_dec k m0); [left | right]; split; nia. }
  destruct Hm as [(-> & Hup) | (-> & Hdn & Hev)].
  - split; [lia|]. split; [intros k; destruct (Hk k) as [[? ?]|[? ?]]; lia|].
    split; [nia|]. split.
    + intros E. nia.
    + intros E. assert (Hbr : b = 2 * r) by nia.
      destruct Hup as [Hup | (_ & Ho)]; [lia|].
      rewrite Z.even_add, <- Z.negb_odd, Ho. reflexivity.
  - split; [lia|]. split; [intros k; destruct (Hk k) as [[? ?]|[? ?]]; lia|].
    split; [nia|]. split.
    + intros E. assert (Hbr : b = 2 * r) by nia.
      rewrite <- Z.negb_odd, (Hev Hbr). reflexivity.
    + intros E. nia.
Qed.

Lemma inject_Z_pos (z : Z) : 0 < z -> (0 < inject_Z z)%Q.
Proof. intros H. change 0%Q with (inject_Z 0). now rewrite <- Zlt_Qlt. Qed.

(** The fraction [roundPos] rounds to an integer is [p / q] in units of the
    last place. *)
Lemma scaled_fraction (p q e0 : Z) :
  0 < p -> 0 < q ->
  let a := if 0 <=? e0 then p else p * 2 ^ (- e0) in
  let b := if 0 <=? e0 then q * 2 ^ e0 else q in
  0 < a /\ 0 < b /\
  (inject_Z p / inject_Z q == inject_Z a / inject_Z b * 2 ^ e0)%Q.
Proof.
  intros Hp Hq a b. subst a b.
  pose proof (inject_Z_pos p Hp) as HP. pose proof (inject_Z_pos q Hq) as HQ.
  pose proof (pow2_pos e0) as Ht.
  destruct (Z.leb_spec 0 e0) as [He | He].
  - assert (H2 : 0 < 2 ^ e0) by (apply Z.pow_pos_nonneg; lia).
    split; [exact Hp|]. split; [nia|].
    rewrite inject_Z_mult, <- pow2_nonneg by exact He.
    field. split; lra.
  - assert (H2 : 0 < 2 ^ (- e0)) by (apply Z.pow_pos_nonneg; lia).
    split; [nia|]. split; [exact Hq|].
    rewrite inject_Z_mult, <- pow2_nonneg by lia.
    pose proof (pow2_neg e0) as E.
    setoid_replace (inject_Z p * 2 ^ (- e0) / inject_Z q * 2 ^ e0)%Q
      with (inject_Z p / inject_Z q * (2 ^ e0 * 2 ^ (- e0)))%Q
      by (field; lra).
    rewrite E. field. lra.
Qed.

(** Where a number lies with respect to a half-integer of the last place is
    a comparison of integers. *)
Lemma offset_scaled (a b m c : Z) (t X : Q) :
  0 < b -> (0 < t)%Q ->
  (X == inject_Z a / inject_Z b * t)%Q ->
  (X - (inject_Z m + inject_Z c * (1 # 2)) * t
   == inject_Z (2 * a - (2 * m + c) * b) / inject_Z (2 * b) * t)%Q.
Proof.
  intros Hb Ht EX. pose proof (inject_Z_pos b Hb) as HB.
  rewrite EX. unfold Z.sub.
  rewrite inject_Z_plus, inject_Z_opp, !inject_Z_mult, inject_Z_plus,
    inject_Z_mult.
  change (inject_Z 2) with 2%Q. field. lra.
Qed.

Lemma offsets_scaled (a b : Z) (t X : Q) :
  0 < b -> (0 < t)%Q ->
  (X == inject_Z a / inject_Z b * t)%Q ->
  exists u, (0 < u)%Q /\
    forall m c,
      (X - (inject_Z m + inject_Z c * (1 # 2)) * t
       == inject_Z (2 * a - (2 * m + c) * b) * u)%Q.
Proof.
  intros Hb Ht EX. exists (/ inject_Z (2 * b) * t)%Q.
  assert (HB : (0 < inject_Z (2 * b))%Q) by (apply inject_Z_pos; lia).
  split.
  - apply Qmult_lt_0_compat; [apply Qinv_lt_0_compat; exact HB | exact Ht].
  - intros m c. rewrite (offset_scaled a b m c t X Hb Ht EX).
    field. lra.
Qed.

Lemma Qabs_inject_scaled (z : Z) (u : Q) :
  (0 < u)%Q -> (Qabs (inject_Z z * u) == inject_Z (Z.abs z) * u)%Q.
Proof.
  intros Hu. rewrite Qabs_Qmult, (Qabs_pos u) by lra. reflexivity.
Qed.

(** What [roundPos] computes: with the last place [2 ^ e0] of the binade of
    [p / q], the multiple [m1 * 2 ^ e0] nearest to [p / q], the even one in
    a tie. *)
Lemma roundPos_spec (p q : Z) :
  0 < p -> 0 < q ->
  exists m1 e0,
    e0 = Z.max (Js.floorLog2 p q - 52) (-1074) /\
    0 <= m1 <= 2 ^ 53 /\
    Js.roundPos p q = (if m1 =? 2 ^ 53 then (2 ^ 52, e0 + 1) else (m1, e0)) /\
    (forall k,
       (Qabs (inject_Z p / inject_Z q - inject_Z m1 * 2 ^ e0)
        <= Qabs (inject_Z p / inject_Z q - inject_Z k * 2 ^ e0))%Q) /\
    ((inject_Z m1 - (1 # 2)) * 2 ^ e0 <= inject_Z p / inject_Z q)%Q /\
    (inject_Z p / inject_Z q <= (inject_Z m1 + (1 # 2)) * 2 ^ e0)%Q /\
    ((inject_Z p / inject_Z q == (inject_Z m1 + (1 # 2)) * 2 ^ e0)%Q ->
     Z.even m1 = true) /\
    ((inject_Z p / inject_Z q == (inject_Z m1 - (1 # 2)) * 2 ^ e0)%Q ->
     Z.even m1 = true).
Proof.
  intros Hp Hq.
  set (e0 := Z.max (Js.floorLog2 p q - 52) (-1074)).
  destruct (scaled_fraction p q e0 Hp Hq) as (Ha & Hb & EX).
  set (a := if 0 <=? e0 then p else p * 2 ^ (- e0)) in *.
  set (b := if 0 <=? e0 then q * 2 ^ e0 else q) in *.
  pose proof (half_even_nearest a b ltac:(lia) Hb) as H. cbv zeta in H.
  set (m1 := if (b <? 2 * (a mod b)) || ((b =? 2 * (a mod b)) && Z.odd (a / b))
             then a / b + 1 else a / b) in *.
  destruct H as (Hm01 & Hnear & (Hlo & Hhi) & Hup & Hdn).
  assert (Hround : Js.roundPos p q
                   = (if m1 =? 2 ^ 53 then (2 ^ 52, e0 + 1) else (m1, e0)))
    by reflexivity.
  assert (He0 : e0 = Z.max (Js.floorLog2 p q - 52) (-1074)) by reflexivity.
  clearbody m1 a b e0.
  pose proof (pow2_pos e0) as Ht.
  set (X := (inject_Z p / inject_Z q)%Q) in *.
  destruct (offsets_scaled a b (2 ^ e0)%Q X Hb Ht EX) as (u & Hu & Hoff).
  assert (Hab : a < 2 ^ 53 * b).
  { destruct (floorLog2_bounds p q Hp Hq) as (_ & Hlt).
    assert (HX : (X < 2 ^ (Js.floorLog2 p q + 1))%Q).
    { subst X. pose proof (inject_Z_pos q Hq) as HQ.
      apply Qlt_shift_div_r; assumption. }
    assert (Hle : (2 ^ (Js.floorLog2 p q + 1) <= 2 ^ (53 + e0))%Q)
      by (apply pow2_le; lia).
    rewrite (pow2_add 53 e0) in Hle.
    pose proof (Hoff (2 ^ 53) 0) as E.
    rewrite (pow2_nonneg 53) in Hle by lia.
    assert (Hneg : (inject_Z (2 * a - (2 * 2 ^ 53 + 0) * b) * u < 0)%Q).
    { rewrite <- E. change (inject_Z 0) with 0%Q.
      set (c := inject_Z (2 ^ 53)) in *. set (t := (2 ^ e0)%Q) in *.
      lra. }
    assert (Hz : (inject_Z (2 * a - (2 * 2 ^ 53 + 0) * b) < 0)%Q).
    { destruct (Qlt_le_dec (inject_Z (2 * a - (2 * 2 ^ 53 + 0) * b)) 0)
        as [Hn | Hn]; [exact Hn | exfalso; nra]. }
    change 0%Q with (inject_Z 0) in Hz. rewrite <- Zlt_Qlt in Hz. lia. }
  assert (Hm0 : 0 <= a / b < 2 ^ 53).
  { split; [apply Z.div_pos; lia | apply Z.div_lt_upper_bound; lia]. }
  exists m1, e0. split; [reflexivity|]. split; [lia|]. split; [exact Hround|].
  assert (Hform : forall c,
            (X - (inject_Z m1 + inject_Z c * (1 # 2)) * 2 ^ e0
             == inject_Z (2 * a - (2 * m1 + c) * b) * u)%Q)
    by (intros c; apply Hoff).
  split; [|split; [|split; [|split]]].
  - intros k.
    pose proof (Hoff m1 0) as E1. pose proof (Hoff k 0) as E2.
    change (inject_Z 0) with 0%Q in E1, E2.
    setoid_replace (X - inject_Z m1 * 2 ^ e0)%Q
      with (X - (inject_Z m1 + 0 * (1 # 2)) * 2 ^ e0)%Q by ring.
    setoid_replace (X - inject_Z k * 2 ^ e0)%Q
      with (X - (inject_Z k + 0 * (1 # 2)) * 2 ^ e0)%Q by ring.
    rewrite E1, E2, !Qabs_inject_scaled by exact Hu.
    apply Qmult_le_compat_r; [|lra].
    rewrite <- Zle_Qle. specialize (Hnear k). lia.
  - pose proof (Hform (-1)) as E.
    assert (Hz : (0 <= inject_Z (2 * a - (2 * m1 + -1) * b))%Q).
    { change 0%Q with (inject_Z 0). rewrite <- Zle_Qle. lia. }
    change (inject_Z (-1)) with (-1)%Q in E.
    assert (0 <= X - (inject_Z m1 + -1 * (1 # 2)) * 2 ^ e0)%Q
      by (rewrite E; nra).
    set (M := inject_Z m1) in *. set (t := (2 ^ e0)%Q) in *. lra.
  - pose proof (Hform 1) as E.
    assert (Hz : (inject_Z (2 * a - (2 * m1 + 1) * b) <= 0)%Q).
    { change 0%Q with (inject_Z 0). rewrite <- Zle_Qle. lia. }
    change (inject_Z 1) with 1%Q in E.
    assert (X - (inject_Z m1 + 1 * (1 # 2)) * 2 ^ e0 <= 0)%Q
      by (rewrite E; nra).
    set (M := inject_Z m1) in *. set (t := (2 ^ e0)%Q) in *. lra.
  - intros EXm. apply Hup. pose proof (Hform 1) as E.
    change (inject_Z 1) with 1%Q in E.
    rewrite EXm in E.
    assert (E0 : (inject_Z (2 * a - (2 * m1 + 1) * b) * u == 0)%Q)
      by (rewrite <- E; ring).
    destruct (Qmult_integral _ _ E0) as [Ez | Ez]; [|lra].
    change 0%Q with (inject_Z 0) in Ez. apply (proj1 (inject_Z_injective _ _)) in Ez. lia.
  - intros EXm. apply Hdn. pose proof (Hform (-1)) as E.
    change (inject_Z (-1)) with (-1)%Q in E.
    rewrite EXm in E.
    assert (E0 : (inject_Z (2 * a - (2 * m1 + -1) * b) * u == 0)%Q)
      by (rewrite <- E; ring).
    destruct (Qmult_integral _ _ E0) as [Ez | Ez]; [|lra].
    change 0%Q with (inject_Z 0) in Ez. apply (proj1 (inject_Z_injective _ _)) in Ez. lia.
Qed.

Lemma inRange_spec (m e : Z) :
  Js.inRange m e = true <-> Z.abs m < 2 ^ 53 /\ -1074 <= e <= 971.
Proof.
  unfold Js.inRange. rewrite !andb_true_iff, Z.ltb_lt, !Z.leb_le. tauto.
Qed.

Lemma pack_spec (negative : bool) (m e : Z) :
  0 <= m < 2 ^ 53 -> -1074 <= e ->
  (e <= 971 ->
   exists d, Js.pack negative (m, e) = Js.Finite d /\
     Js.mantissa d = (if negative then - m else m) /\ Js.exponent d = e) /\
  (971 < e ->
   Js.pack negative (m, e)
   = if negative then Js.NegInfinity else Js.PosInfinity).
Proof.
  intros Hm He. unfold Js.pack. cbn [fst snd].
  destruct (bool_dec (Js.inRange (if negative then - m else m) e) true)
    as [H | H].
  - split.
    + intros _. eexists. split; [reflexivity|]. split; reflexivity.
    + intros Hbig. pose proof (proj1 (inRange_spec _ _) H) as Hr. lia.
  - split.
    + intros Hsmall. exfalso. apply H. apply (proj2 (inRange_spec _ _)).
      destruct negative; lia.
    + intros _. reflexivity.
Qed.

Lemma overflowBound_scaled :
  (overflowBound == (inject_Z (2 ^ 53) - (1 # 2)) * 2 ^ 971)%Q.
Proof.
  unfold overflowBound.
  replace 1024 with (53 + 971) by reflexivity.
  replace 970 with (-1 + 971) by reflexivity.
  rewrite !pow2_add. rewrite (pow2_nonneg 53) by lia.
  change (2 ^ (-1))%Q with (/ 2)%Q.
  set (t := (2 ^ 971)%Q). set (c := inject_Z (2 ^ 53)). field.
Qed.

(** The result of [roundPos]: a mantissa of at most 53 bits at an exponent
    of the subnormals at least; no number of that form is nearer to
    [p / q]; the exponent is out of range exactly when [p / q] is half a
    last place above the largest double, or beyond. *)
Lemma roundPos_result (p q : Z) :
  0 < p -> 0 < q ->
  exists m e,
    Js.roundPos p q = (m, e) /\
    0 <= m < 2 ^ 53 /\ -1074 <= e /\
    (forall m' e',
       Z.abs m' < 2 ^ 53 -> -1074 <= e' ->
       (Qabs (inject_Z p / inject_Z q - inject_Z m * 2 ^ e)
        <= Qabs (inject_Z p / inject_Z q - inject_Z m' * 2 ^ e'))%Q) /\
    (e <= 971 -> (inject_Z p / inject_Z q < overflowBound)%Q) /\
    (971 < e -> (overflowBound <= inject_Z p / inject_Z q)%Q).
Proof.
  intros Hp Hq.
  destruct (roundPos_spec p q Hp Hq)
    as (m1 & e0 & He0 & Hm1 & Hround & Hnear & Hlo & Hhi & Hup & Hdn).
  destruct (floorLog2_bounds p q Hp Hq) as (HL & _).
  pose proof (inject_Z_pos q Hq) as HQ.
  assert (HX : (2 ^ Js.floorLog2 p q <= inject_Z p / inject_Z q)%Q)
    by (apply Qle_shift_div_l; assumption).
  set (X := (inject_Z p / inject_Z q)%Q) in *.
  set (L := Js.floorLog2 p q) in *.
  pose proof (pow2_pos e0) as Ht.
  (* the value of the result *)
  assert (Hval : exists m e,
             Js.roundPos p q = (m, e) /\ 0 <= m < 2 ^ 53 /\
             (inject_Z m * 2 ^ e == inject_Z m1 * 2 ^ e0)%Q /\
             ((m1 = 2 ^ 53 /\ e = e0 + 1) \/ (m1 < 2 ^ 53 /\ e = e0))).
  { destruct (Z.eqb_spec m1 (2 ^ 53)) as [E | E].
    - exists (2 ^ 52), (e0 + 1). split; [exact Hround|]. split; [lia|].
      split; [|left; split; [exact E | reflexivity]].
      rewrite E, Z.add_comm, pow2_add.
      change (2 ^ 1)%Q with 2%Q.
      setoid_replace (inject_Z (2 ^ 53)) with (inject_Z (2 ^ 52) * 2)%Q
        by reflexivity.
      ring.
    - exists m1, e0. split; [exact Hround|]. split; [lia|].
      split; [reflexivity|]. right. split; [lia | reflexivity]. }
  destruct Hval as (m & e & Hr & Hm & Ev & Hcase).
  exists m, e. split; [exact Hr|]. split; [exact Hm|]. split; [lia|].
  pose proof overflowBound_scaled as EO.
  split; [|split].
  - intros m' e' Hm' He'. rewrite Ev.
    destruct (Z_le_gt_dec e0 e') as [Hge | Hlt].
    + (* a multiple of the last place *)
      assert (Em : (inject_Z m' * 2 ^ e'
                    == inject_Z (m' * 2 ^ (e' - e0)) * 2 ^ e0)%Q).
      { rewrite inject_Z_mult, <- pow2_nonneg by lia.
        rewrite <- Qmult_assoc, <- pow2_add.
        now replace (e' - e0 + e0) with e' by lia. }
      rewrite Em. apply Hnear.
    + (* a number below the binade *)
      assert (E52 : (2 ^ L == inject_Z (2 ^ 52) * 2 ^ e0)%Q).
      { rewrite <- pow2_nonneg, <- pow2_add by lia. f_equiv. lia. }
      assert (Hbelow : (inject_Z m' * 2 ^ e' < inject_Z (2 ^ 52) * 2 ^ e0)%Q).
      { pose proof (pow2_pos e') as Ht'.
        assert (H1 : (inject_Z m' < inject_Z (2 ^ 53))%Q)
          by (rewrite <- Zlt_Qlt; lia).
        assert (H2 : (inject_Z (2 ^ 53) * 2 ^ e' <= 2 ^ L)%Q).
        { rewrite <- pow2_nonneg, <- pow2_add by lia. apply pow2_le. lia. }
        rewrite <- E52.
        apply Qlt_le_trans with (y := (inject_Z (2 ^ 53) * 2 ^ e')%Q);
          [|exact H2].
        apply Qmult_lt_r; assumption. }
      specialize (Hnear (2 ^ 52)).
      rewrite E52 in HX.
      set (V := (inject_Z m1 * 2 ^ e0)%Q) in *.
      set (V' := (inject_Z m' * 2 ^ e')%Q) in *.
      set (B := (inject_Z (2 ^ 52) * 2 ^ e0)%Q) in *.
      apply Qle_trans with (y := Qabs (X - B)); [exact Hnear|].
      rewrite (Qabs_pos (X - B)) by lra.
      apply Qle_trans with (y := (X - V')%Q); [lra | apply Qle_Qabs].
  - intros He. rewrite EO.
    pose proof (pow2_le e0 971) as Hle971.
    pose proof (pow2_pos 971) as Ht971.
    destruct Hcase as [(E1 & E2) | (E1 & E2)].
    + assert (Hle : (2 ^ (e0 + 1) <= 2 ^ 971)%Q) by (apply pow2_le; lia).
      rewrite pow2_add in Hle. change (2 ^ 1)%Q with 2%Q in Hle.
      rewrite E1 in Hhi.
      set (c := inject_Z (2 ^ 53)) in *.
      assert (Hc : (2 <= c)%Q)
        by (subst c; change 2%Q with (inject_Z 2); rewrite <- Zle_Qle; lia).
      set (t := (2 ^ e0)%Q) in *. set (T := (2 ^ 971)%Q) in *.
      nra.
    + specialize (Hle971 ltac:(lia)).
      assert (Hstrict : (X < (inject_Z (2 ^ 53) - (1 # 2)) * 2 ^ e0)%Q).
      { destruct (Z_le_gt_dec m1 (2 ^ 53 - 2)) as [Hs | Hs].
        - assert (Hq2 : (inject_Z m1 <= inject_Z (2 ^ 53) - 2)%Q).
          { change 2%Q with (inject_Z 2). unfold Qminus.
            rewrite <- inject_Z_opp, <- inject_Z_plus, <- Zle_Qle. lia. }
          set (c := inject_Z (2 ^ 53)) in *. set (M := inject_Z m1) in *.
          set (t := (2 ^ e0)%Q) in *. nra.
        - assert (Em1 : m1 = 2 ^ 53 - 1) by lia.
          assert (Hodd : Z.even m1 = false) by (rewrite Em1; reflexivity).
          assert (Hne : ~ (X == (inject_Z m1 + (1 # 2)) * 2 ^ e0)%Q).
          { intros Heq. rewrite (Hup Heq) in Hodd. discriminate. }
          assert (Hlt : (X < (inject_Z m1 + (1 # 2)) * 2 ^ e0)%Q).
          { apply Qle_lteq in Hhi. destruct Hhi as [Hlt | Heq];
              [exact Hlt | contradiction]. }
          assert (Ec : (inject_Z m1 == inject_Z (2 ^ 53) - 1)%Q).
          { rewrite Em1. change 1%Q with (inject_Z 1). unfold Qminus.
            now rewrite <- inject_Z_opp, <- inject_Z_plus. }
          rewrite Ec in Hlt.
          set (c := inject_Z (2 ^ 53)) in *. set (t := (2 ^ e0)%Q) in *.
          lra. }
      set (c := inject_Z (2 ^ 53)) in *.
      assert (Hc : (2 <= c)%Q)
        by (subst c; change 2%Q with (inject_Z 2); rewrite <- Zle_Qle; lia).
      set (t := (2 ^ e0)%Q) in *. set (T := (2 ^ 971)%Q) in *.
      nra.
  - intros He. rewrite EO.
    pose proof (pow2_pos 971) as Ht971.
    destruct Hcase as [(E1 & E2) | (E1 & E2)].
    + assert (Hle : (2 ^ 971 <= 2 ^ e0)%Q) by (apply pow2_le; lia).
      rewrite E1 in Hlo.
      set (c := inject_Z (2 ^ 53)) in *.
      assert (Hc : (2 <= c)%Q)
        by (subst c; change 2%Q with (inject_Z 2); rewrite <- Zle_Qle; lia).
      set (t := (2 ^ e0)%Q) in *. set (T := (2 ^ 971)%Q) in *.
      nra.
    + assert (Hle : (2 ^ (53 + 971) <= 2 ^ L)%Q) by (apply pow2_le; lia).
      rewrite pow2_add, (pow2_nonneg 53) in Hle by lia.
      set (c := inject_Z (2 ^ 53)) in *.
      set (T := (2 ^ 971)%Q) in *.
      nra.
Qed.

Lemma overflowBound_pos : (0 < overflowBound)%Q.
Proof.
  rewrite overflowBound_scaled. apply Qmult_lt_0_compat; [|apply pow2_pos].
  reflexivity.
Qed.

Lemma double_in_range (d : Js.Double) :
  Z.abs (Js.mantissa d) < 2 ^ 53 /\ -1074 <= Js.exponent d.
Proof.
  destruct (proj1 (inRange_spec _ _) (Js.representable d)) as (H1 & H2 & _).
  split; assumption.
Qed.

(** [round64] is IEEE 754 rounding to nearest: a number less than half a
    last place above the largest double in magnitude goes to a double no
    other double is nearer than, a number at or beyond that bound to the
    infinity of its sign. *)
Lemma round64_correct (x : Q) :
  match Js.round64 x with
  | Js.Finite d =>
      (forall d', (Qabs (x - Js.value d) <= Qabs (x - Js.value d'))%Q) /\
      (Qabs x < overflowBound)%Q
  | Js.PosInfinity => (overflowBound <= x)%Q
  | Js.NegInfinity => (x <= - overflowBound)%Q
  | Js.NaN => False
  end.
Proof.
  destruct x as [n q]. unfold Js.round64. cbn [Qnum Qden].
  destruct n as [|p|p].
  - destruct (pack_spec false 0 0 ltac:(lia) ltac:(lia)) as (Hfin & _).
    destruct (Hfin ltac:(lia)) as (d & -> & Hm & He).
    assert (Ev : (Js.value d == 0)%Q).
    { rewrite value_scaled, Hm. change (inject_Z 0) with 0%Q. ring. }
    assert (Ex : (0 # q == 0)%Q) by reflexivity.
    split.
    + intros d'. rewrite Ev, Ex.
      setoid_replace (0 - 0)%Q with 0%Q by ring. apply Qabs_nonneg.
    + rewrite Ex. apply overflowBound_pos.
  - destruct (roundPos_result (Z.pos p) (Z.pos q) ltac:(lia) ltac:(lia))
      as (m & e & -> & Hm & He & Hnear & Hin & Hout).
    pose proof (Qmake_Qdiv (Z.pos p) q) as EX.
    destruct (pack_spec false m e Hm He) as (Hfin & Hinf).
    destruct (Z_le_gt_dec e 971) as [Hle | Hgt].
    + destruct (Hfin Hle) as (d & -> & Em & Ee). split.
      * intros d'. rewrite (value_scaled d), (value_scaled d'), Em, Ee, EX.
        destruct (double_in_range d') as (H1 & H2). now apply Hnear.
      * rewrite Qabs_pos by (unfold Qle; cbn; lia). rewrite EX. now apply Hin.
    + rewrite Hinf by lia. rewrite EX. apply Hout. lia.
  - destruct (roundPos_result (Z.pos p) (Z.pos q) ltac:(lia) ltac:(lia))
      as (m & e & -> & Hm & He & Hnear & Hin & Hout).
    pose proof (Qmake_Qdiv (Z.pos p) q) as EX.
    assert (Ex : (Z.neg p # q == - (Z.pos p # q))%Q) by reflexivity.
    destruct (pack_spec true m e Hm He) as (Hfin & Hinf).
    destruct (Z_le_gt_dec e 971) as [Hle | Hgt].
    + destruct (Hfin Hle) as (d & -> & Em & Ee). split.
      * intros d'. rewrite (value_scaled d), (value_scaled d'), Em, Ee, Ex.
        destruct (double_in_range d') as (H1 & H2).
        specialize (Hnear (- Js.mantissa d') (Js.exponent d')
                      ltac:(lia) H2).
        rewrite inject_Z_opp, <- EX in Hnear. rewrite inject_Z_opp.
        setoid_replace (- (Z.pos p # q) - - inject_Z m * 2 ^ e)%Q
          with (- ((Z.pos p # q) - inject_Z m * 2 ^ e))%Q by ring.
        setoid_replace (- (Z.pos p # q)
                        - inject_Z (Js.mantissa d') * 2 ^ Js.exponent d')%Q
          with (- ((Z.pos p # q)
                   - - inject_Z (Js.mantissa d') * 2 ^ Js.exponent d'))%Q
          by ring.
        rewrite !Qabs_opp. exact Hnear.
      * rewrite Ex, Qabs_opp, Qabs_pos by (unfold Qle; cbn; lia).
        rewrite EX. now apply Hin.
    + rewrite Hinf, Ex by lia. apply Qopp_le_compat. rewrite EX.
      apply Hout. lia.
Qed.

Lemma Qabs_eq_cases (a b : Q) :
  (Qabs a == Qabs b)%Q -> (a == b)%Q \/ (a == - b)%Q.
Proof.
  apply (Qabs_case a); apply (Qabs_case b); intros Hb Ha H.
  - now left.
  - right. exact H.
  - right. lra.
  - left. lra.
Qed.

(** A tie goes to the even mantissa: when another number of the form of a
    double is as near to [p / q] as the result of [roundPos], the mantissa
    of the result, which is normalised or at the exponent of the
    subnormals, is even. *)
Lemma roundPos_tie (p q m e : Z) :
  0 < p -> 0 < q -> Js.roundPos p q = (m, e) ->
  forall m' e',
    Z.abs m' < 2 ^ 53 -> -1074 <= e' ->
    ~ (inject_Z m' * 2 ^ e' == inject_Z m * 2 ^ e)%Q ->
    (Qabs (inject_Z p / inject_Z q - inject_Z m * 2 ^ e)
     == Qabs (inject_Z p / inject_Z q - inject_Z m' * 2 ^ e'))%Q ->
    Z.even m = true /\ (2 ^ 52 <= m \/ e = -1074).
Proof.
  intros Hp Hq Hr m' e' Hm' He' Hne Htie.
  destruct (roundPos_spec p q Hp Hq)
    as (m1 & e0 & He0 & Hm1 & Hround & Hnear & Hlo & Hhi & Hup & Hdn).
  destruct (floorLog2_bounds p q Hp Hq) as (HL & _).
  pose proof (inject_Z_pos q Hq) as HQ.
  assert (HX : (2 ^ Js.floorLog2 p q <= inject_Z p / inject_Z q)%Q)
    by (apply Qle_shift_div_l; assumption).
  set (X := (inject_Z p / inject_Z q)%Q) in *.
  set (L := Js.floorLog2 p q) in *.
  pose proof (pow2_pos e0) as Ht.
  assert (Ev : (inject_Z m * 2 ^ e == inject_Z m1 * 2 ^ e0)%Q /\
               ((m1 = 2 ^ 53 /\ m = 2 ^ 52 /\ e = e0 + 1) \/
                (m1 < 2 ^ 53 /\ m = m1 /\ e = e0))).
  { rewrite Hr in Hround.
    destruct (Z.eqb_spec m1 (2 ^ 53)) as [E | E];
      match type of Hround with
      | _ = (?a, ?b) =>
          assert (Hme : m = a /\ e = b) by (split; congruence)
      end; destruct Hme as [-> ->].
    - split; [|left; repeat split; exact E].
      rewrite E, Z.add_comm, pow2_add.
      change (2 ^ 1)%Q with 2%Q.
      setoid_replace (inject_Z (2 ^ 53)) with (inject_Z (2 ^ 52) * 2)%Q
        by reflexivity.
      ring.
    - split; [reflexivity|]. right. repeat split. lia. }
  destruct Ev as (Ev & Hcase).
  rewrite Ev in Htie, Hne.
  (* the lower end of the binade, when the result is not subnormal *)
  assert (Hbin : e0 <> -1074 ->
                 (inject_Z (2 ^ 52) * 2 ^ e0 <= X)%Q /\ 2 ^ 52 <= m1).
  { intros Hn.
    assert (E52 : (2 ^ L == inject_Z (2 ^ 52) * 2 ^ e0)%Q).
    { rewrite <- pow2_nonneg, <- pow2_add by lia. f_equiv. lia. }
    rewrite E52 in HX. split; [exact HX|].
    specialize (Hnear (2 ^ 52)).
    rewrite (Qabs_pos (X - inject_Z (2 ^ 52) * 2 ^ e0)) in Hnear by lra.
    assert (Hge : (inject_Z (2 ^ 52) * 2 ^ e0 <= inject_Z m1 * 2 ^ e0)%Q).
    { pose proof (Qle_Qabs (X - inject_Z m1 * 2 ^ e0)) as Habs. lra. }
    apply Qmult_le_r in Hge; [|exact Ht]. rewrite <- Zle_Qle in Hge.
    exact Hge. }
  (* the other number is a multiple of the last place *)
  assert (Hmult : e0 <= e').
  { destruct (Z_le_gt_dec e0 e') as [Hge | Hlt]; [exact Hge | exfalso].
    destruct (Hbin ltac:(lia)) as (HB & _).
    assert (Hbelow : (inject_Z m' * 2 ^ e' < inject_Z (2 ^ 52) * 2 ^ e0)%Q).
    { pose proof (pow2_pos e') as Ht'.
      assert (H1 : (inject_Z m' < inject_Z (2 ^ 53))%Q)
        by (rewrite <- Zlt_Qlt; lia).
      assert (H2 : (inject_Z (2 ^ 53) * 2 ^ e'
                    <= inject_Z (2 ^ 52) * 2 ^ e0)%Q).
      { rewrite <- !pow2_nonneg, <- !pow2_add by lia. apply pow2_le. lia. }
      apply Qlt_le_trans with (y := (inject_Z (2 ^ 53) * 2 ^ e')%Q);
        [|exact H2].
      apply Qmult_lt_r; assumption. }
    specialize (Hnear (2 ^ 52)).
    rewrite (Qabs_pos (X - inject_Z (2 ^ 52) * 2 ^ e0)) in Hnear by lra.
    rewrite Htie in Hnear.
    rewrite (Qabs_pos (X - inject_Z m' * 2 ^ e')) in Hnear by lra.
    lra. }
  set (k := m' * 2 ^ (e' - e0)).
  assert (Ek : (inject_Z m' * 2 ^ e' == inject_Z k * 2 ^ e0)%Q).
  { subst k. rewrite inject_Z_mult, <- pow2_nonneg by lia.
    rewrite <- Qmult_assoc, <- pow2_add.
    now replace (e' - e0 + e0) with e' by lia. }
  rewrite Ek in Htie, Hne. clearbody k.
  assert (Hkm : k <> m1) by (intros ->; apply Hne; reflexivity).
  assert (Hmid : (2 * X == (inject_Z m1 + inject_Z k) * 2 ^ e0)%Q).
  { destruct (Qabs_eq_cases _ _ Htie) as [E | E].
    - exfalso. apply Hne.
      setoid_replace (inject_Z k * 2 ^ e0)%Q
        with (X - (X - inject_Z k * 2 ^ e0))%Q by ring.
      rewrite <- E. ring.
    - setoid_replace (2 * X)%Q
        with ((X - inject_Z m1 * 2 ^ e0) + inject_Z m1 * 2 ^ e0 + X)%Q by ring.
      rewrite E. ring. }
  assert (Hk : k = m1 + 1 \/ k = m1 - 1).
  { assert (H1 : (inject_Z (m1 - 1) * 2 ^ e0 <= inject_Z k * 2 ^ e0)%Q).
    { unfold Z.sub. rewrite inject_Z_plus, inject_Z_opp.
      change (inject_Z 1) with 1%Q.
      set (M := inject_Z m1) in *. set (K := inject_Z k) in *.
      set (t := (2 ^ e0)%Q) in *. lra. }
    assert (H2 : (inject_Z k * 2 ^ e0 <= inject_Z (m1 + 1) * 2 ^ e0)%Q).
    { rewrite inject_Z_plus. change (inject_Z 1) with 1%Q.
      set (M := inject_Z m1) in *. set (K := inject_Z k) in *.
      set (t := (2 ^ e0)%Q) in *. lra. }
    apply Qmult_le_r in H1, H2; try exact Ht.
    rewrite <- Zle_Qle in H1, H2. lia. }
  assert (Heven : Z.even m1 = true).
  { destruct Hk as [-> | ->].
    - apply Hup. rewrite inject_Z_plus in Hmid.
      change (inject_Z 1) with 1%Q in Hmid.
      set (M := inject_Z m1) in *. set (t := (2 ^ e0)%Q) in *. lra.
    - apply Hdn. unfold Z.sub in Hmid.
      rewrite inject_Z_plus, inject_Z_opp in Hmid.
      change (inject_Z 1) with 1%Q in Hmid.
      set (M := inject_Z m1) in *. set (t := (2 ^ e0)%Q) in *. lra. }
  destruct Hcase as [(E1 & -> & ->) | (E1 & -> & ->)].
  - split; [reflexivity | left; lia].
  - split; [exact Heven|].
    destruct (Z.eq_dec e0 (-1074)) as [E | E]; [now right | left].
    now apply Hbin.
Qed.

Lemma Qabs_flip (a b : Q) : (a == - b)%Q -> (Qabs a == Qabs b)%Q.
Proof. intros ->. apply Qabs_opp. Qed.

Lemma round64_tie (x : Q) (d : Js.Double) :
  Js.round64 x = Js.Finite d ->
  forall d',
    ~ (Js.value d' == Js.value d)%Q ->
    (Qabs (x - Js.value d) == Qabs (x - Js.value d'))%Q ->
    Z.even (Js.mantissa d) = true /\
    (2 ^ 52 <= Z.abs (Js.mantissa d) \/ Js.exponent d = -1074).
Proof.
  destruct x as [n q]. unfold Js.round64. cbn [Qnum Qden].
  destruct n as [|p|p]; intros Hd d' Hne Htie.
  - exfalso.
    destruct (pack_spec false 0 0 ltac:(lia) ltac:(lia)) as (Hfin & _).
    destruct (Hfin ltac:(lia)) as (d0 & E0 & Hm & He).
    rewrite E0 in Hd. injection Hd as <-.
    assert (Ev : (Js.value d0 == 0)%Q).
    { rewrite value_scaled, Hm. change (inject_Z 0) with 0%Q. ring. }
    assert (Ex : (0 # q == 0)%Q) by reflexivity.
    rewrite Ev, Ex in Htie. rewrite Ev in Hne.
    setoid_replace (0 - 0)%Q with 0%Q in Htie by ring.
    change (Qabs 0) with 0%Q in Htie.
    apply Hne.
    pose proof (Qabs_nonneg (0 - Js.value d')) as Hnn.
    destruct (Qabs_eq_cases 0 (0 - Js.value d')) as [E | E].
    + rewrite <- Htie. reflexivity.
    + lra.
    + lra.
  - destruct (roundPos_result (Z.pos p) (Z.pos q) ltac:(lia) ltac:(lia))
      as (m & e & Hr & Hm & He & _).
    rewrite Hr in Hd.
    destruct (pack_spec false m e Hm He) as (Hfin & Hinf).
    destruct (Z_le_gt_dec e 971) as [Hle | Hgt];
      [|rewrite Hinf in Hd by lia; discriminate Hd].
    destruct (Hfin Hle) as (d0 & E0 & Em & Ee).
    rewrite E0 in Hd. injection Hd as <-.
    destruct (double_in_range d') as (H1 & H2).
    rewrite (value_scaled d0), (value_scaled d'), Em, Ee in Htie, Hne.
    rewrite (Qmake_Qdiv (Z.pos p) q) in Htie.
    destruct (roundPos_tie (Z.pos p) (Z.pos q) m e ltac:(lia) ltac:(lia) Hr _ _ H1 H2 Hne Htie)
      as (Hev & Hcan).
    rewrite Em, Ee. split; [exact Hev | lia].
  - destruct (roundPos_result (Z.pos p) (Z.pos q) ltac:(lia) ltac:(lia))
      as (m & e & Hr & Hm & He & _).
    rewrite Hr in Hd.
    destruct (pack_spec true m e Hm He) as (Hfin & Hinf).
    destruct (Z_le_gt_dec e 971) as [Hle | Hgt];
      [|rewrite Hinf in Hd by lia; discriminate Hd].
    destruct (Hfin Hle) as (d0 & E0 & Em & Ee).
    rewrite E0 in Hd. injection Hd as <-.
    destruct (double_in_range d') as (H1 & H2).
    assert (Ex : (Z.neg p # q == - (Z.pos p # q))%Q) by reflexivity.
    rewrite (value_scaled d0), (value_scaled d'), Em, Ee in Htie, Hne.
    rewrite Ex, (Qmake_Qdiv (Z.pos p) q), inject_Z_opp in Htie.
    rewrite inject_Z_opp in Hne.
    assert (Hne' : ~ (inject_Z (- Js.mantissa d') * 2 ^ Js.exponent d'
                      == inject_Z m * 2 ^ e)%Q).
    { intros E. apply Hne. rewrite inject_Z_opp in E.
      set (t' := (2 ^ Js.exponent d')%Q) in *. set (t := (2 ^ e)%Q) in *.
      lra. }
    assert (Htie' : (Qabs (inject_Z (Z.pos p) / inject_Z (Z.pos q)
                           - inject_Z m * 2 ^ e)
                     == Qabs (inject_Z (Z.pos p) / inject_Z (Z.pos q)
                              - inject_Z (- Js.mantissa d')
                                * 2 ^ Js.exponent d'))%Q).
    { rewrite inject_Z_opp.
      match type of Htie with
      | (?l == ?r)%Q =>
          transitivity l;
          [apply Qabs_flip; ring
          |transitivity r; [exact Htie | apply Qabs_flip; ring]]
      end. }
    destruct (roundPos_tie (Z.pos p) (Z.pos q) m e ltac:(lia) ltac:(lia) Hr
                (- Js.mantissa d') (Js.exponent d')
                ltac:(lia) H2 Hne' Htie') as (Hev & Hcan).
    rewrite Em, Ee, Z.even_opp. split; [exact Hev | lia].
Qed.

(** The arithmetic of the model rounds as IEEE 754 asks. *)
Lemma round64_correctlyRounded (x : Q) : correctlyRounded x (Js.round64 x).
Proof.
  pose proof (round64_correct x) as H. unfold correctlyRounded.
  destruct (Js.round64 x) as [d| | |] eqn:E; try exact H.
  destruct H as (Hnear & Hrange). split; [|exact Hrange].
  split; [exact Hnear|]. intros d'. now apply round64_tie.
Qed.

(** ** C1: overflow discard *)

(** C1.  A tick that is processed (the controller is running and not paused)
    and whose computed elapsed time, the clock reading minus [lastTimestamp],
    is strictly greater than [allowedOverflowThreshold] calls no update step
    and no render step, leaves [elapsedTimeInMilliseconds] unchanged and
    sets [lastTimestamp] to the tick's timestamp.  All it does besides is
    request the next frame. *)
Theorem overflow_tick_is_discarded
  (callback : StepId -> list Z -> World -> list Action) (w : World) :
  isRunning (this w) = true ->
  isPaused (this w) = false ->
  Js.gt (now w - lastTimestamp (this w)) (allowedOverflowThreshold (this w))
    = true ->
  exists w',
    step callback w = Normal w' /\
    stepCalls (trace w') = stepCalls (trace w) /\
    trace w' = trace w ++ [Requested (frameRequestId (this w'))] /\
    console w' = console w /\
    elapsedTimeInMilliseconds (this w') = elapsedTimeInMilliseconds (this w) /\
    lastTimestamp (this w') = now w.
Proof.
  intros Hr Hp Hov. eexists. split.
  - apply step_overflow; [now split | exact Hov].
  - cbn. rewrite stepCalls_app. cbn. rewrite app_nil_r. repeat split.
Qed.

Lemma overflow_tick_is_discarded_witness :
  exists w',
    step loggingSteps lateFrame = Normal w' /\
    stepCalls (trace w') = stepCalls (trace lateFrame) /\
    trace w' = trace lateFrame ++ [Requested (frameRequestId (this w'))] /\
    console w' = console lateFrame /\
    elapsedTimeInMilliseconds (this w') =
      elapsedTimeInMilliseconds (this lateFrame) /\
    lastTimestamp (this w') = now lateFrame.
Proof.
  apply (overflow_tick_is_discarded loggingSteps lateFrame); reflexivity.
Defined.

(** ** C4: start while running *)

(** C4.  When the controller is already running, a further [start()] leaves
    the whole state as it is: no further frame is requested, and
    [startTimestamp], [lastTimestamp], [elapsedTimeInMilliseconds] and
    [frameRequestId] keep their values. *)
Theorem start_is_idempotent (w : World) :
  isRunning (this w) = true ->
  start w = w /\
  requests (start w) = requests w /\
  trace (start w) = trace w /\
  startTimestamp (this (start w)) = startTimestamp (this w) /\
  lastTimestamp (this (start w)) = lastTimestamp (this w) /\
  elapsedTimeInMilliseconds (this (start w)) = elapsedTimeInMilliseconds (this w) /\
  frameRequestId (this (start w)) = frameRequestId (this w).
Proof.
  intros Hr. assert (E : start w = w) by (unfold start; now rewrite Hr).
  rewrite E. repeat split.
Qed.

Lemma start_is_idempotent_witness :
  start timelyFrame = timelyFrame /\ requests (start timelyFrame) = 1%nat.
Proof.
  destruct (start_is_idempotent timelyFrame eq_refl) as (E & Hq & _).
  split; [exact E | exact Hq].
Defined.

(** ** C5: stop *)

(** C5 (as the code has it).  After [stop()] on a running controller whose
    [frameRequestId] is not the sentinel, [frameRequestId] is the sentinel,
    the request has been cancelled by a call of the host's
    [cancelAnimationFrame] with the handle it had (whichever function was
    injected as [requestFrame]: [stop()] does not consult it), no frame has
    been requested, and [elapsedTimeInMilliseconds] and [startTimestamp] are
    as before.  Any invocation of the tick handler while the controller is
    not running returns at once and changes nothing; so, whatever happens
    next short of a new [start()] (stale frames firing, further calls of
    [stop()] and [pause()], the owner managing the step lists), no step is
    called, no frame is requested and the controller stays stopped. *)
Theorem stop_cancels_and_silences_ticks
  (callback : StepId -> list Z -> World -> list Action)
  (w : World) (ops : list Op) :
  isRunning (this w) = true ->
  frameRequestId (this w) <> INVALID_REQUEST_ID ->
  Forall (onOwner notStart) ops ->
  frameRequestId (this (stop w)) = INVALID_REQUEST_ID /\
  isRunning (this (stop w)) = false /\
  trace (stop w) = trace w ++ [Cancelled (frameRequestId (this w))] /\
  (forall source,
     stop (withRequestFrame source w) = withRequestFrame source (stop w)) /\
  requests (stop w) = requests w /\
  elapsedTimeInMilliseconds (this (stop w)) = elapsedTimeInMilliseconds (this w) /\
  startTimestamp (this (stop w)) = startTimestamp (this w) /\
  (forall v, isRunning (this v) = false -> step callback v = Normal v) /\
  idleSince (stop w) (run callback ops (stop w)).
Proof.
  intros Hr Hid Hops.
  assert (E : stop w =
              modify (set_isRunning false)
                (modify (set_frameRequestId INVALID_REQUEST_ID)
                   (cancelAnimationFrame (frameRequestId (this w)) w))).
  { unfold stop. rewrite Hr. cbn.
    destruct (Z.eqb_spec (frameRequestId (this w)) INVALID_REQUEST_ID);
      [contradiction | reflexivity]. }
  repeat (split; [rewrite E; reflexivity|]).
  split.
  { intros source. unfold stop, withRequestFrame. cbn.
    destruct (negb (isRunning (this w))
              || (frameRequestId (this w) =? INVALID_REQUEST_ID));
      reflexivity. }
  repeat (split; [rewrite E; reflexivity|]).
  split.
  - intros v Hv. now apply step_not_running.
  - apply run_idleSince; [exact Hops|]. rewrite E. repeat split.
Qed.

Lemma stop_cancels_and_silences_ticks_witness :
  frameRequestId (this (stop timelyFrame)) = INVALID_REQUEST_ID /\
  trace (stop timelyFrame) = [Requested 1; Cancelled 1] /\
  idleSince (stop timelyFrame)
    (run loggingSteps [Tick; Owner CallStop; Tick; Owner CallPause; Tick]
       (stop timelyFrame)).
Proof.
  assert (Hid : frameRequestId (this timelyFrame) <> INVALID_REQUEST_ID)
    by discriminate.
  assert (Hops : Forall (onOwner notStart)
                   [Tick; Owner CallStop; Tick; Owner CallPause; Tick])
    by (repeat constructor).
  destruct (stop_cancels_and_silences_ticks loggingSteps timelyFrame
              [Tick; Owner CallStop; Tick; Owner CallPause; Tick]
              eq_refl Hid Hops)
    as (H1 & _ & H3 & _ & _ & _ & _ & _ & H9).
  split; [exact H1|]. split; [exact H3 | exact H9].
Defined.

(** C5 as stated fails for a running controller whose handle equals the
    sentinel (its frame source handed out -1): the controller runs and is
    not paused, yet [stop()] returns at its guard, nothing is cancelled, the
    controller keeps running, and the frame that fires next calls the update
    and the render step and requests another frame. *)
Lemma stop_with_sentinel_handle_cancels_nothing :
  isRunning (this sentinelFrame) = true /\
  isPaused (this sentinelFrame) = false /\
  stop sentinelFrame = sentinelFrame /\
  trace (stop sentinelFrame) = [Requested (-1)] /\
  isRunning (this (stop sentinelFrame)) = true /\
  trace (run loggingSteps [Tick] (stop sentinelFrame))
    = [Requested (-1); Requested (-1); Called 0%nat [16]; Called 1%nat []] /\
  console (run loggingSteps [Tick] (stop sentinelFrame))
    = ["U"%string; "R"%string] /\
  ~ idleSince (stop sentinelFrame)
      (run loggingSteps [Tick] (stop sentinelFrame)).
Proof.
  repeat (split; [vm_compute; reflexivity|]).
  intros (H & _). vm_compute in H. discriminate H.
Qed.

(** ** C7: the overflow threshold *)

Lemma Math_round_finite_near (d : Js.Double) :
  exists z,
    Js.Math_round (Js.Finite d) = Js.Int z /\
    (Js.value d - (1 # 2) < inject_Z z /\
     inject_Z z <= Js.value d + (1 # 2))%Q.
Proof.
  eexists. split; [reflexivity|]. split.
  - pose proof (Qlt_floor (Js.value d + (1 # 2))) as H.
    rewrite inject_Z_plus in H.
    apply Qplus_lt_l with (z := 1%Q).
    setoid_replace (Js.value d - (1 # 2) + 1)%Q
      with (Js.value d + (1 # 2))%Q by ring.
    exact H.
  - apply Qfloor_le.
Qed.

Lemma FRAMERATE_is_a_double : FRAMERATE = Js.Finite Reference.framerate.
Proof. vm_compute. reflexivity. Qed.

(** The double arithmetic of the model and the Standard Library's
    specification of IEEE 754 give the same quotient for [1000/60] and the
    same products for the sample counts. *)
Example arithmetic_agrees_with_the_reference :
  Reference.div Reference.thousand Reference.sixty
    = Reference.ofNumber FRAMERATE /\
  Reference.mul ALLOWED_OVERFLOW_FRAMES Reference.framerate
    = Reference.ofNumber (Js.mul (Js.Finite ALLOWED_OVERFLOW_FRAMES) FRAMERATE) /\
  Reference.mul minusSixAndThreeQuarters Reference.framerate
    = Reference.ofNumber (Js.mul (Js.Finite minusSixAndThreeQuarters) FRAMERATE) /\
  Reference.mul minusOne Reference.framerate
    = Reference.ofNumber (Js.mul (Js.Finite minusOne) FRAMERATE) /\
  Reference.mul tenToThe308 Reference.framerate
    = Reference.ofNumber (Js.mul (Js.Finite tenToThe308) FRAMERATE).
Proof. repeat split; vm_compute; reflexivity. Qed.

(** The thresholds of the sample counts: -6.75 frames are -112.5 ms exactly
    and a little below that in doubles, which rounds to -113; 1e308 frames
    overflow. *)
Example thresholds_of_sample_counts :
  allowedOverflowThreshold (newController countingSource minusSixAndThreeQuarters)
    = Js.Int (-113) /\
  allowedOverflowThreshold (newController countingSource minusOne)
    = Js.Int (-17) /\
  allowedOverflowThreshold (newController countingSource tenToThe308)
    = Js.PlusInfinity.
Proof. repeat split; vm_compute; reflexivity. Qed.

(** C7 (as the code has it).  For every finite number passed as the
    overflow-frame count, [allowedOverflowThreshold] is set at construction
    to [Math.round] of the count times [1000/60], both the quotient and the
    product being the doubles that JavaScript computes: the double nearest
    to the exact result, the one with the even mantissa in a tie, or an
    infinity when the exact result is half a last place above the largest
    double or beyond.  When the product is finite the threshold is the
    integer nearest to it, a tie going up; when the product overflows it is
    the infinity of the same sign.  When no count is passed the count is 10,
    which gives 167. *)
Theorem threshold_is_rounded_product
  (raf source : FrameSource) (n : Js.Double) :
  construct raf (Js.Function source) (Js.Num (Js.Finite n))
    = inr (newController source n) /\
  allowedOverflowThreshold (newController source n)
    = Js.Math_round (Js.mul (Js.Finite n) FRAMERATE) /\
  FRAMERATE = Js.round64 (1000 / 60) /\
  correctlyRounded (1000 / 60) FRAMERATE /\
  FRAMERATE = Js.Finite Reference.framerate /\
  Js.mul (Js.Finite n) FRAMERATE
    = Js.round64 (Js.value n * Js.value Reference.framerate) /\
  correctlyRounded (Js.value n * Js.value Reference.framerate)
    (Js.mul (Js.Finite n) FRAMERATE) /\
  (forall product,
     Js.mul (Js.Finite n) FRAMERATE = Js.Finite product ->
     exists z,
       allowedOverflowThreshold (newController source n) = Js.Int z /\
       (Js.value product - (1 # 2) < inject_Z z /\
        inject_Z z <= Js.value product + (1 # 2))%Q) /\
  (Js.mul (Js.Finite n) FRAMERATE = Js.PosInfinity ->
   allowedOverflowThreshold (newController source n) = Js.PlusInfinity) /\
  (Js.mul (Js.Finite n) FRAMERATE = Js.NegInfinity ->
   allowedOverflowThreshold (newController source n) = Js.MinusInfinity) /\
  construct raf (Js.Function source) Js.Undefined
    = inr (newController source ALLOWED_OVERFLOW_FRAMES) /\
  allowedOverflowThreshold (newController source ALLOWED_OVERFLOW_FRAMES)
    = Js.Int 167.
Proof.
  split; [reflexivity|]. split; [reflexivity|]. split; [reflexivity|].
  split; [exact (round64_correctlyRounded (1000 / 60))|].
  split; [exact FRAMERATE_is_a_double|].
  split; [now rewrite FRAMERATE_is_a_double|].
  split; [rewrite FRAMERATE_is_a_double; cbn [Js.mul];
          apply round64_correctlyRounded|].
  unfold newController. cbn [allowedOverflowThreshold].
  split; [|split; [|split; [|split]]].
  - intros product ->. apply Math_round_finite_near.
  - intros ->. reflexivity.
  - intros ->. reflexivity.
  - reflexivity.
  - vm_compute. reflexivity.
Qed.

Lemma threshold_is_rounded_product_witness :
  (exists z,
     allowedOverflowThreshold (newController countingSource minusSixAndThreeQuarters)
       = Js.Int z /\
     (-7916483719987201 # 70368744177664) - (1 # 2) < inject_Z z /\
     inject_Z z <= (-7916483719987201 # 70368744177664) + (1 # 2))%Q /\
  allowedOverflowThreshold (newController countingSource tenToThe308)
    = Js.PlusInfinity.
Proof.
  destruct (threshold_is_rounded_product countingSource countingSource
              minusSixAndThreeQuarters) as (_ & _ & _ & _ & _ & _ & _ & Hfin & _).
  destruct (threshold_is_rounded_product countingSource countingSource
              tenToThe308) as (_ & _ & _ & _ & _ & _ & _ & _ & Hinf & _).
  split.
  - exact (Hfin (Js.mkDouble (-7916483719987201) (-46) eq_refl)
             ltac:(vm_compute; reflexivity)).
  - apply Hinf. vm_compute. reflexivity.
Defined.

(** C7 as stated fails: ten frames give 167 ms, not 10 * (1000/60) ms. *)
Lemma threshold_of_ten_frames_is_not_the_product :
  exists c,
    construct countingSource (Js.Function countingSource)
      (Js.Num (Js.Finite ALLOWED_OVERFLOW_FRAMES)) = inr c /\
    Js.value ALLOWED_OVERFLOW_FRAMES == 10 /\
    allowedOverflowThreshold c = Js.Int 167 /\
    ~ (inject_Z 167 == 10 * (1000 / 60))%Q.
Proof.
  eexists. split; [reflexivity|]. split; [reflexivity|].
  split; [vm_compute; reflexivity|].
  intros H. vm_compute in H. discriminate H.
Qed.

(** ** C8: validation at construction *)

(** C8.  Construction raises a [TypeError] exactly when the request-frame
    argument (the host's [requestAnimationFrame] when none is passed) is not
    a function or the overflow-frame count (10 when none is passed) is not a
    number in the sense of [t.Number]; in every other case it returns a
    controller. *)
Theorem construction_validates_arguments
  (raf : FrameSource) (a1 a2 : Js.Value) :
  ((exists message, construct raf a1 a2 = inl (TypeError message)) <->
   (Tcomb.Function_is (Js.orDefault a1 (Js.Function raf)) = false \/
    Tcomb.Number_is
      (Js.orDefault a2 (Js.Num (Js.Finite ALLOWED_OVERFLOW_FRAMES))) = false)) /\
  ((exists c, construct raf a1 a2 = inr c) <->
   (Tcomb.Function_is (Js.orDefault a1 (Js.Function raf)) = true /\
    Tcomb.Number_is
      (Js.orDefault a2 (Js.Num (Js.Finite ALLOWED_OVERFLOW_FRAMES))) = true)).
Proof.
  unfold construct.
  destruct (Js.orDefault a1 (Js.Function raf)) as [| |b|x|s| |f]; cbn;
    try (split; split;
         [ intros _; left; reflexivity
         | intros _; eexists; reflexivity
         | intros [c Hc]; discriminate Hc
         | intros [Hf _]; discriminate Hf ]).
  destruct (Js.orDefault a2 _) as [| |b|[q| | |]|s| |g]; cbn;
    try (split; split;
         [ intros _; right; reflexivity
         | intros _; eexists; reflexivity
         | intros [c Hc]; discriminate Hc
         | intros [_ Hn]; discriminate Hn ]).
  split; split.
  - intros [e He]. discriminate He.
  - intros [H | H]; discriminate H.
  - intros _. split; reflexivity.
  - intros _. eexists. reflexivity.
Qed.

(** ** C2: the step lists a tick runs over *)




(** ** C6: the order of the calls *)

(** A loop that a step cuts short: where it stops and what it has called. *)
Lemma forEachStep_cut
  (callback : StepId -> list Z -> World -> list Action)
  (steps : list StepId) (args : list Z) (w w' : World) :
  forEachStep callback steps args w = Abrupt w' ->
  exists done s rest,
    cutAt callback steps args w w' done s rest /\
    stepCalls (trace w') = stepCalls (trace w) ++ calls (done ++ [s]) args.
Proof.
  revert w. induction steps as [|s0 rest0 IH]; intros w H.
  - discriminate H.
  - change (forEachStep callback (s0 :: rest0) args w)
      with (do v <- invoke callback s0 args w ;;
            forEachStep callback rest0 args v) in H.
    pose proof (invoke_stepCalls callback s0 args w) as Hs.
    destruct (invoke callback s0 args w) as [v|v] eqn:Hi.
    + change (forEachStep callback rest0 args v = Abrupt w') in H.
      change (settle (Normal v)) with v in Hs.
      destruct (IH v H) as (done & s & rest & (Hsplit & u & Hd & Hraise) & Ht).
      exists (s0 :: done), s, rest. split.
      * split; [now rewrite Hsplit|]. exists u. split; [|exact Hraise].
        change (forEachStep callback (s0 :: done) args w)
          with (do v' <- invoke callback s0 args w ;;
                forEachStep callback done args v').
        rewrite Hi. exact Hd.
      * rewrite Ht, Hs. unfold calls. cbn [map app].
        now rewrite <- app_assoc.
    + change (Abrupt v = Abrupt w') in H. injection H as <-.
      change (settle (Abrupt v)) with v in Hs.
      exists [], s0, rest0. split.
      * split; [reflexivity|]. exists w. split; [reflexivity | exact Hi].
      * exact Hs.
Qed.




(** ** C3: pause and resume *)

Lemma start_idle (w : World) :
  isRunning (this w) = false -> isPaused (this w) = false ->
  runningSince (now w) (start w) /\ clockSane (start w).
Proof.
  destruct w as [[r p us rs st lt el fid rf thr] n rq co tr]. cbn.
  intros -> ->. unfold runningSince, clockSane, start. cbn.
  repeat split. intros _. lia.
Qed.

Lemma pause_running (t0 : Z) (w : World) :
  runningSince t0 w ->
  isPaused (this (pause w)) = true /\ startTimestamp (this (pause w)) = t0.
Proof.
  destruct w as [[r p us rs st lt el fid rf thr] n rq co tr].
  unfold runningSince. cbn. intros (-> & -> & ->).
  unfold pause, stop. cbn.
  destruct (fid =? INVALID_REQUEST_ID); cbn; split; reflexivity.
Qed.

Lemma start_paused (w : World) :
  isPaused (this w) = true ->
  startTimestamp (this (start w)) = startTimestamp (this w).
Proof.
  destruct w as [[r p us rs st lt el fid rf thr] n rq co tr]. cbn.
  intros ->. unfold start. cbn. now destruct r.
Qed.

(** [pause()] on a run in progress either stops the controller or, when the
    handle is the sentinel, leaves it running and marks it paused. *)
Lemma pause_running_cases (t0 : Z) (w : World) :
  runningSince t0 w ->
  isRunning (this (pause w)) = false \/ stuck (pause w).
Proof.
  destruct w as [[r p us rs st lt el fid rf thr] n rq co tr].
  unfold runningSince, stuck. cbn. intros (-> & -> & _).
  unfold pause, stop. cbn.
  destruct (Z.eqb_spec fid INVALID_REQUEST_ID) as [E|E]; cbn.
  - right. now rewrite E.
  - now left.
Qed.

(** [start()] on a stopped controller takes the clock reading for
    [lastTimestamp] and leaves the accumulator. *)
Lemma start_stopped (w : World) :
  isRunning (this w) = false ->
  clockSane (start w) /\
  elapsedTimeInMilliseconds (this (start w)) = elapsedTimeInMilliseconds (this w).
Proof.
  destruct w as [[r p us rs st lt el fid rf thr] n rq co tr]. cbn.
  intros ->. unfold clockSane, start. cbn.
  destruct p; cbn; split; try reflexivity; intros _; lia.
Qed.

Lemma start_keeps_accumulator (w : World) :
  elapsedTimeInMilliseconds (this (start w)) = elapsedTimeInMilliseconds (this w).
Proof.
  destruct w as [[r p us rs st lt el fid rf thr] n rq co tr].
  unfold start. cbn. destruct r; [reflexivity|]. cbn. now destruct p.
Qed.

(** Nothing moves a controller that runs, is marked paused and holds the
    sentinel: the three methods return at their guards, and so does the tick
    handler. *)
Lemma apply_stuck (callback : StepId -> list Z -> World -> list Action)
  (o : Op) (w : World) :
  stuck w ->
  stuck (apply callback o w) /\
  elapsedTimeInMilliseconds (this (apply callback o w))
    = elapsedTimeInMilliseconds (this w).
Proof.
  destruct w as [[r p us rs st lt el fid rf thr] n rq co tr].
  unfold stuck. cbn. intros (-> & -> & ->).
  destruct o as [a|].
  - destruct a; cbn; repeat split.
  - unfold apply. rewrite step_paused by reflexivity. cbn. repeat split.
Qed.

Lemma run_stuck (callback : StepId -> list Z -> World -> list Action)
  (ops : list Op) (w : World) :
  stuck w ->
  stuck (run callback ops w) /\
  elapsedTimeInMilliseconds (this (run callback ops w))
    = elapsedTimeInMilliseconds (this w).
Proof.
  revert w. induction ops as [|o rest IH]; intros w Hw.
  - split; [exact Hw | reflexivity].
  - change (run callback (o :: rest) w)
      with (run callback rest (apply callback o w)).
    destruct (apply_stuck callback o w Hw) as (H1 & E1).
    destruct (IH _ H1) as (H2 & E2). split; [exact H2|].
    now rewrite E2, E1.
Qed.

Lemma start_stuck (w : World) : stuck w -> start w = w.
Proof. intros (Hr & _). unfold start. now rewrite Hr. Qed.




(** ** C9: paused and running *)

(** C9 on a frame source whose handle is -1.  The constructor accepts the
    source; after [start()] and [pause()] the controller is both running and
    paused: [stop()], called by [pause()], took the handle for the sentinel
    and returned, and [pause()] set its flag all the same.
    [flags_exclusive_without_sentinel_handles] shows that nothing else leads
    there. *)
Theorem paused_and_running_with_sentinel_handle :
  construct countingSource (Js.Function sentinelSource) Js.Undefined
    = inr (newController sentinelSource ALLOWED_OVERFLOW_FRAMES) /\
  isRunning
    (this (run noSteps [Owner CallStart; Owner CallPause]
             (fresh (newController sentinelSource ALLOWED_OVERFLOW_FRAMES) 1000)))
    = true /\
  isPaused
    (this (run noSteps [Owner CallStart; Owner CallPause]
             (fresh (newController sentinelSource ALLOWED_OVERFLOW_FRAMES) 1000)))
    = true.
Proof. repeat split. Qed.

(** ** C10: a handle that equals the sentinel *)

(** C10 (as the code has it).  While the controller runs with
    [frameRequestId] equal to -1, as it does once the frame source has
    returned -1 as a handle: [stop()] changes nothing at all, so the
    controller keeps running, no cancellation is requested and the next frame
    that fires is processed and asks for another; [pause()] requests no
    cancellation and leaves the running flag set as well, but it sets the
    paused flag, after which a frame that fires is turned away by the guard
    of the tick handler and asks for no other, and [start()], [stop()] and
    [pause()] all return at once.  With a frame source that returns -1 every
    time, the controller keeps running and its frames keep asking for the
    next one through any run in which [pause()] is not called, however often
    [stop()] is. *)
Theorem sentinel_handle_defeats_stop
  (callback : StepId -> list Z -> World -> list Action) (w : World) :
  isRunning (this w) = true ->
  isPaused (this w) = false ->
  frameRequestId (this w) = INVALID_REQUEST_ID ->
  stop w = w /\
  keepsTicking callback (stop w) /\
  pause w = modify (set_isPaused true) w /\
  isRunning (this (pause w)) = true /\
  trace (pause w) = trace w /\
  step callback (pause w) = Normal (pause w) /\
  ~ keepsTicking callback (pause w) /\
  start (pause w) = pause w /\
  stop (pause w) = pause w /\
  pause (pause w) = pause w /\
  ((forall k, requestFrame (this w) k = INVALID_REQUEST_ID) ->
   (forall s args v, Forall notPause (callback s args v)) ->
   forall ops, Forall (onOwner notPause) ops ->
     isRunning (this (run callback ops w)) = true /\
     keepsTicking callback (run callback ops w)).
Proof.
  intros Hr Hp Hid.
  assert (Es : stop w = w).
  { unfold stop. now rewrite Hr, Hid. }
  assert (Ep : pause w = modify (set_isPaused true) w).
  { unfold pause. now rewrite Hr, Hp, Es. }
  assert (Et : step callback (pause w) = Normal (pause w)).
  { apply step_paused. now rewrite Ep. }
  split; [exact Es|]. split.
  { rewrite Es. apply processed_keepsTicking. now split. }
  split; [exact Ep|]. split; [now rewrite Ep|]. split; [now rewrite Ep|].
  split; [exact Et|]. split.
  { unfold keepsTicking. rewrite Et. cbn. lia. }
  split; [rewrite Ep; unfold start; cbn; now rewrite Hr|].
  split; [rewrite Ep; unfold stop; cbn; now rewrite Hr, Hid|].
  split; [rewrite Ep; unfold pause; cbn; now rewrite Hr|].
  intros Hsrc Hcb ops Hops.
  assert (Hb : sentinelBound (run callback ops w)).
  { apply run_sentinelBound; [exact Hcb | exact Hops |]. repeat split; auto. }
  split; [apply Hb|]. apply processed_keepsTicking.
  destruct Hb as (? & ? & _). now split.
Qed.

Lemma sentinel_handle_defeats_stop_witness :
  stop sentinelFrame = sentinelFrame /\
  keepsTicking loggingSteps (stop sentinelFrame) /\
  step loggingSteps (pause sentinelFrame) = Normal (pause sentinelFrame) /\
  isRunning
    (this (run loggingSteps [Owner CallStop; Tick; Owner CallStop; Tick]
             sentinelFrame)) = true.
Proof.
  destruct (sentinel_handle_defeats_stop loggingSteps sentinelFrame
              eq_refl eq_refl eq_refl)
    as (H1 & H2 & _ & _ & _ & H6 & _ & _ & _ & _ & Hrun).
  split; [exact H1|]. split; [exact H2|]. split; [exact H6|].
  apply Hrun.
  - intros k. reflexivity.
  - intros [|[|s]] args v; repeat constructor.
  - repeat constructor.
Defined.

(** C10 as stated fails: with -1 for a handle [pause()] does halt the loop.
    The frame that was left pending fires, is turned away and requests no
    other. *)
Lemma pause_halts_the_loop_with_sentinel_handle :
  processed sentinelFrame /\
  frameRequestId (this sentinelFrame) = INVALID_REQUEST_ID /\
  requestFrame (this sentinelFrame) = sentinelSource /\
  ~ (keepsTicking loggingSteps (stop sentinelFrame) /\
     keepsTicking loggingSteps (pause sentinelFrame)).
Proof.
  split; [split; reflexivity|]. split; [reflexivity|]. split; [reflexivity|].
  intros [_ H]. vm_compute in H. lia.
Qed.


(** * Further properties of the controller *)

(** ** Lifecycle calls, composed *)

(** X1.  [stop()] on a controller that is not running changes nothing, and a
    second [stop()] never adds to the first: nothing is cancelled twice. *)
Theorem stop_twice (w : World) :
  stop (stop w) = stop w /\
  (isRunning (this w) = false -> stop w = w).
Proof.
  destruct w as [[r p us rs st lt el fid rf thr] n rq co tr].
  unfold stop. cbn. destruct r; cbn.
  - destruct (Z.eqb_spec fid INVALID_REQUEST_ID) as [E|E]; cbn.
    + rewrite E. cbn. split; [reflexivity | discriminate].
    + split; [reflexivity | discriminate].
  - split; reflexivity.
Qed.

(** X2.  [pause()] on a controller that is not running, or that is paused
    already, changes nothing (a controller that was never started is not
    marked paused), and a second [pause()] never adds to the first. *)
Theorem pause_twice (w : World) :
  pause (pause w) = pause w /\
  (isRunning (this w) = false \/ isPaused (this w) = true -> pause w = w).
Proof.
  destruct w as [[r p us rs st lt el fid rf thr] n rq co tr].
  unfold pause, stop. cbn. destruct r, p; cbn;
    try (split; [reflexivity | intros _; reflexivity]).
  destruct (Z.eqb_spec fid INVALID_REQUEST_ID) as [E|E]; cbn;
    (split; [reflexivity | intros [H | H]; discriminate H]).
Qed.

(** No call of [start()], [stop()] or [pause()] and nothing else that is
    done from outside the tick handler writes the accumulator, the threshold
    or the frame source. *)
Lemma perform_keeps_accounts (a : Action) (w : World) :
  elapsedTimeInMilliseconds (this (settle (perform a w)))
    = elapsedTimeInMilliseconds (this w) /\
  allowedOverflowThreshold (this (settle (perform a w)))
    = allowedOverflowThreshold (this w) /\
  requestFrame (this (settle (perform a w))) = requestFrame (this w).
Proof.
  destruct w as [[r p us rs st lt el fid rf thr] n rq co tr].
  destruct a; cbn; try (repeat split; reflexivity).
  - unfold start. cbn. destruct r; cbn; [repeat split|].
    destruct p; repeat split.
  - unfold stop. cbn.
    destruct (negb r || (fid =? INVALID_REQUEST_ID)); repeat split.
  - unfold pause, stop. cbn. destruct (negb r || p); cbn; [repeat split|].
    destruct (negb r || (fid =? INVALID_REQUEST_ID)); repeat split.
Qed.

(** X3.  A run that is stopped and started again begins anew, but only in part:
    [stop()] cancels the pending request, the [start()] that follows
    requests a frame and takes the clock reading for both [startTimestamp]
    and [lastTimestamp], and [elapsedTimeInMilliseconds] keeps the value it
    had; it is reset by neither call. *)
Theorem restart_after_stop (w : World) :
  isRunning (this w) = true ->
  isPaused (this w) = false ->
  frameRequestId (this w) <> INVALID_REQUEST_ID ->
  isRunning (this (start (stop w))) = true /\
  isPaused (this (start (stop w))) = false /\
  startTimestamp (this (start (stop w))) = now w /\
  lastTimestamp (this (start (stop w))) = now w /\
  elapsedTimeInMilliseconds (this (start (stop w)))
    = elapsedTimeInMilliseconds (this w) /\
  frameRequestId (this (start (stop w))) = requestFrame (this w) (requests w) /\
  trace (start (stop w))
    = trace w ++ [Cancelled (frameRequestId (this w));
                  Requested (requestFrame (this w) (requests w))].
Proof.
  destruct w as [[r p us rs st lt el fid rf thr] n rq co tr]. cbn.
  intros -> -> Hid. unfold stop. cbn.
  destruct (Z.eqb_spec fid INVALID_REQUEST_ID) as [E|E]; [contradiction|].
  unfold start. cbn. rewrite <- app_assoc. repeat split.
Qed.

Lemma restart_after_stop_witness :
  startTimestamp (this (start (stop timelyFrame))) = 1016 /\
  elapsedTimeInMilliseconds (this (start (stop timelyFrame))) = 0 /\
  trace (start (stop timelyFrame)) = [Requested 1; Cancelled 1; Requested 2].
Proof.
  assert (Hid : frameRequestId (this timelyFrame) <> INVALID_REQUEST_ID)
    by discriminate.
  destruct (restart_after_stop timelyFrame eq_refl eq_refl Hid)
    as (_ & _ & H3 & _ & H5 & _ & H7).
  split; [exact H3|]. split; [exact H5 | exact H7].
Defined.


(** ** What a tick does to the accounts, whatever its steps do *)

Lemma always_ok (callback : StepId -> list Z -> World -> list Action) :
  forall s args v, Forall (fun _ : Action => True) (callback s args v).
Proof. intros s args v. apply Forall_forall. auto. Qed.

Lemma perform_accumulator (c : Z) (a : Action) (w : World) :
  True ->
  elapsedTimeInMilliseconds (this w) = c ->
  elapsedTimeInMilliseconds (this (settle (perform a w))) = c.
Proof.
  intros _ <-. apply perform_keeps_accounts.
Qed.

(** X4.  A tick that is processed in time adds exactly its elapsed time to the
    accumulator, whatever the steps do and also when one of them raises.
    When no step raises, the tick ends with [lastTimestamp] at its own
    timestamp, also when a step has called [start()] in between, so that the
    difference between [lastTimestamp] and the accumulator is what it was
    before the tick. *)
Theorem tick_accounting
  (callback : StepId -> list Z -> World -> list Action) (w : World) :
  processed w -> ~ overflows w ->
  elapsedTimeInMilliseconds (this (settle (step callback w)))
    = elapsedTimeInMilliseconds (this w) + (now w - lastTimestamp (this w)) /\
  (forall w', step callback w = Normal w' ->
     lastTimestamp (this w') = now w /\
     lastTimestamp (this w') - elapsedTimeInMilliseconds (this w')
       = lastTimestamp (this w) - elapsedTimeInMilliseconds (this w)).
Proof.
  intros Hp Hov.
  assert (He : elapsedTimeInMilliseconds (this (settle (step callback w)))
               = elapsedTimeInMilliseconds (this w)
                 + (now w - lastTimestamp (this w))).
  { apply (step_in_time_invariant callback
             (fun v => elapsedTimeInMilliseconds (this v)
                       = elapsedTimeInMilliseconds (this w)
                         + (now w - lastTimestamp (this w)))
             (fun _ => True)
             (perform_accumulator _) (fun e v Hv => Hv) (always_ok callback)
             w Hp Hov).
    - reflexivity.
    - intros v Hv. exact Hv. }
  split; [exact He|].
  intros w' H. rewrite H in He. cbn in He.
  assert (Hl : lastTimestamp (this w') = now w).
  { rewrite (step_in_time _ _ Hp Hov) in H.
    destruct (update callback (elapsedSinceLast w) (accounted w)) as [wm|wm];
      cbn in H; [|discriminate H].
    destruct (render callback wm) as [wr|wr]; cbn in H; [|discriminate H].
    injection H as <-. reflexivity. }
  split; [exact Hl|]. rewrite Hl, He. lia.
Qed.

Lemma tick_accounting_witness :
  elapsedTimeInMilliseconds (this (settle (step loggingSteps timelyFrame))) = 16 /\
  lastTimestamp (this (settle (step loggingSteps timelyFrame))) = 1016.
Proof.
  assert (Hp : processed timelyFrame) by (split; reflexivity).
  assert (Hov : ~ overflows timelyFrame)
    by (intros H; vm_compute in H; discriminate H).
  destruct (tick_accounting loggingSteps timelyFrame Hp Hov) as (H1 & H2).
  split; [exact H1|].
  apply (H2 (settle (step loggingSteps timelyFrame))).
  vm_compute. reflexivity.
Defined.

(** X5.  Time during which the controller is stopped or paused is not counted:
    [start()] takes the clock reading for [lastTimestamp], so the first frame
    after it, when it comes in time, adds the time since that [start()] and
    nothing of the time before it. *)
Theorem stopped_time_is_not_counted
  (callback : StepId -> list Z -> World -> list Action)
  (w : World) (idle gap : Z) :
  isRunning (this w) = false ->
  Js.gt gap (allowedOverflowThreshold (this w)) = false ->
  elapsedTimeInMilliseconds
    (this (settle (step callback (afterMs gap (start (afterMs idle w))))))
    = elapsedTimeInMilliseconds (this w) + gap.
Proof.
  intros Hr Hgap.
  assert (Hs : processed (afterMs gap (start (afterMs idle w))) /\
               ~ overflows (afterMs gap (start (afterMs idle w))) /\
               elapsedTimeInMilliseconds
                 (this (afterMs gap (start (afterMs idle w))))
                 + (now (afterMs gap (start (afterMs idle w)))
                    - lastTimestamp (this (afterMs gap (start (afterMs idle w)))))
               = elapsedTimeInMilliseconds (this w) + gap).
  { destruct w as [[r p us rs st lt el fid rf thr] n rq co tr].
    cbn in Hr, Hgap. subst r.
    unfold processed, overflows, elapsedSinceLast, afterMs, start. cbn.
    destruct p; cbn; repeat split; try lia;
      intros H;
      match type of H with
      | Js.gt ?x _ = true => replace x with gap in H by lia
      end; congruence. }
  destruct Hs as (Hp & Hov & Hsum).
  apply (step_in_time_invariant callback
           (fun v => elapsedTimeInMilliseconds (this v)
                     = elapsedTimeInMilliseconds (this w) + gap)
           (fun _ => True)
           (perform_accumulator _) (fun e v Hv => Hv) (always_ok callback)
           _ Hp Hov).
  - exact Hsum.
  - intros v Hv. exact Hv.
Qed.

Lemma stopped_time_is_not_counted_witness :
  elapsedTimeInMilliseconds
    (this (settle (step loggingSteps
                     (afterMs 16 (start (afterMs 5000 (pause timelyFrame)))))))
    = 16.
Proof.
  apply (stopped_time_is_not_counted loggingSteps (pause timelyFrame) 5000 16).
  - reflexivity.
  - vm_compute. reflexivity.
Defined.


(** ** Invariants that depend on what is called *)

Section CallInvariance.

Variable callback : StepId -> list Z -> World -> list Action.
Variable P : World -> Prop.
Variable ok : Action -> Prop.

Hypothesis P_perform :
  forall a w, ok a -> P w -> P (settle (perform a w)).
Hypothesis callbacks_ok : forall s args v, Forall ok (callback s args v).

Lemma forEachStep_invariant_called
  (steps : list StepId) (args : list Z) (w : World) :
  (forall s v, P v -> P (record (Called s args) v)) ->
  P w -> P (settle (forEachStep callback steps args w)).
Proof.
  intros Hcall. revert w. induction steps as [|s rest IH]; intros w Hw.
  - exact Hw.
  - cbn.
    assert (Hs : P (settle (invoke callback s args w))).
    { unfold invoke. apply (performAll_invariant P ok P_perform).
      - apply callbacks_ok.
      - now apply Hcall. }
    destruct (invoke callback s args w) as [v|v]; cbn in *.
    + now apply IH.
    + exact Hs.
Qed.

(** The phases of a tick that is processed in time, up to the closing
    assignment. *)
Lemma phases_invariant_called (w : World) :
  (forall s v, P v -> P (record (Called s [elapsedSinceLast w]) v)) ->
  (forall s v, P v -> P (record (Called s []) v)) ->
  P (accounted w) ->
  P (settle (do w4 <- update callback (elapsedSinceLast w) (accounted w) ;;
             render callback w4)).
Proof.
  intros Hu Hr Hacc.
  assert (H1 : P (settle (update callback (elapsedSinceLast w) (accounted w)))).
  { unfold update. now apply forEachStep_invariant_called. }
  destruct (update callback (elapsedSinceLast w) (accounted w)) as [wm|wm];
    cbn in *; [|exact H1].
  unfold render. now apply forEachStep_invariant_called.
Qed.

Lemma step_in_time_invariant_called (w : World) :
  processed w -> ~ overflows w ->
  (forall s v, P v -> P (record (Called s [elapsedSinceLast w]) v)) ->
  (forall s v, P v -> P (record (Called s []) v)) ->
  P (accounted w) ->
  (forall v, P v -> P (modify (set_lastTimestamp (now w)) v)) ->
  P (settle (step callback w)).
Proof.
  intros Hp Hov Hu Hr Hacc Hfin.
  pose proof (phases_invariant_called w Hu Hr Hacc) as Hph.
  rewrite (step_in_time _ _ Hp Hov).
  destruct (update callback (elapsedSinceLast w) (accounted w)) as [wm|wm];
    cbn in *; [|exact Hph].
  destruct (render callback wm) as [wr|wr]; cbn in *; auto.
Qed.

(** The same phases, when they are cut short. *)
Lemma step_in_time_abrupt (w w' : World) :
  processed w -> ~ overflows w ->
  step callback w = Abrupt w' ->
  w' = settle (do w4 <- update callback (elapsedSinceLast w) (accounted w) ;;
               render callback w4).
Proof.
  intros Hp Hov H. rewrite (step_in_time _ _ Hp Hov) in H.
  destruct (update callback (elapsedSinceLast w) (accounted w)) as [wm|wm];
    cbn in *.
  - destruct (render callback wm) as [wr|wr]; cbn in *;
      [discriminate H | now injection H as <-].
  - now injection H as <-.
Qed.

End CallInvariance.

(** ** A step that raises *)

Lemma perform_cutShort (b : World) (a : Action) (w : World) :
  quiet a -> cutShort b w -> cutShort b (settle (perform a w)).
Proof. destruct a; cbn; intros Ha H; (contradiction || exact H). Qed.

(** X6.  A step that raises does not stop the loop.  In a tick that is processed
    in time and whose steps call none of [start()], [stop()], [pause()], when
    a step raises the controller is still running, the next frame has been
    requested and its handle kept, and the accumulator has been charged with
    the tick's elapsed time; [lastTimestamp] is left where it was, so that
    the next frame computes its elapsed time from before this one. *)
Theorem raising_step_leaves_the_loop_armed
  (callback : StepId -> list Z -> World -> list Action) (w w' : World) :
  (forall s args v, Forall quiet (callback s args v)) ->
  processed w -> ~ overflows w ->
  step callback w = Abrupt w' ->
  isRunning (this w') = true /\ isPaused (this w') = false /\
  requests w' = S (requests w) /\
  frameRequestId (this w') = requestFrame (this w) (requests w) /\
  lastTimestamp (this w') = lastTimestamp (this w) /\
  elapsedTimeInMilliseconds (this w')
    = elapsedTimeInMilliseconds (this w) + (now w - lastTimestamp (this w)) /\
  keepsTicking callback w'.
Proof.
  intros Hq Hp Hov H.
  assert (Hc : cutShort w w').
  { rewrite (step_in_time_abrupt callback w w' Hp Hov H).
    apply (phases_invariant_called callback (cutShort w) quiet
             (perform_cutShort w) Hq w).
    - intros s v Hv. exact Hv.
    - intros s v Hv. exact Hv.
    - destruct Hp as [Hr Hpa]. unfold cutShort. cbn. repeat split; assumption. }
  destruct Hc as (H1 & H2 & H3 & H4 & H5 & H6).
  repeat split; try assumption.
  apply processed_keepsTicking. now split.
Qed.

Lemma raising_step_leaves_the_loop_armed_witness :
  exists w',
    step raisingSteps timelyFrame = Abrupt w' /\
    isRunning (this w') = true /\
    requests w' = 2%nat /\
    lastTimestamp (this w') = 1000 /\
    elapsedTimeInMilliseconds (this w') = 16 /\
    console w' = ["U"%string].
Proof.
  assert (Hq : forall s args v, Forall quiet (raisingSteps s args v))
    by (intros [|[|s]] args v; repeat constructor).
  assert (Hp : processed timelyFrame) by (split; reflexivity).
  assert (Hov : ~ overflows timelyFrame)
    by (intros H; vm_compute in H; discriminate H).
  assert (Hs : step raisingSteps timelyFrame
               = Abrupt (settle (step raisingSteps timelyFrame)))
    by (vm_compute; reflexivity).
  destruct (raising_step_leaves_the_loop_armed raisingSteps timelyFrame _
              Hq Hp Hov Hs) as (H1 & _ & H3 & _ & H5 & H6 & _).
  exists (settle (step raisingSteps timelyFrame)).
  split; [exact Hs|]. split; [exact H1|]. split; [exact H3|].
  split; [exact H5|]. split; [exact H6|]. vm_compute. reflexivity.
Defined.


(** ** The schedule *)

Lemma perform_rearmedOnce (b : World) (a : Action) (w : World) :
  quiet a -> rearmedOnce b w -> rearmedOnce b (settle (perform a w)).
Proof. destruct a; cbn; intros Ha H; (contradiction || exact H). Qed.

Lemma called_rearmedOnce (b : World) (s : StepId) (args : list Z) (w : World) :
  rearmedOnce b w -> rearmedOnce b (record (Called s args) w).
Proof.
  intros (Hq & Hid & made & Ht & Hm). repeat split; [exact Hq | exact Hid |].
  exists (made ++ [Called s args]). cbn. split.
  - rewrite Ht, <- app_assoc. reflexivity.
  - rewrite stepCalls_app, Hm. reflexivity.
Qed.

(** X7.  A tick that passes the guard requests exactly one frame, before it calls
    any step, and keeps the handle of that request, whether it is discarded,
    runs to its end or is cut short; a tick that the guard turns away
    requests nothing.  The steps are assumed to call none of [start()],
    [stop()], [pause()]. *)
Theorem one_request_per_processed_tick
  (callback : StepId -> list Z -> World -> list Action) (w : World) :
  (forall s args v, Forall quiet (callback s args v)) ->
  (processed w ->
     requests (settle (step callback w)) = S (requests w) /\
     frameRequestId (this (settle (step callback w)))
       = requestFrame (this w) (requests w) /\
     exists made,
       trace (settle (step callback w))
         = trace w ++ Requested (requestFrame (this w) (requests w)) :: made /\
       stepCalls made = made) /\
  (step_skips w -> settle (step callback w) = w).
Proof.
  intros Hq. split.
  - intros Hp.
    assert (Ha : rearmedOnce w (armed w)).
    { repeat split. exists []. split; reflexivity. }
    change (rearmedOnce w (settle (step callback w))).
    destruct (overflows_dec w) as [Hov | Hin].
    + rewrite (step_overflow _ _ Hp Hov). exact Ha.
    + apply (step_in_time_invariant_called callback (rearmedOnce w) quiet
               (perform_rearmedOnce w) Hq w Hp Hin).
      * intros s v. apply called_rearmedOnce.
      * intros s v. apply called_rearmedOnce.
      * exact Ha.
      * intros v Hv. exact Hv.
  - intros Hs. now rewrite (step_skipped _ _ Hs).
Qed.

Lemma one_request_per_processed_tick_witness :
  requests (settle (step loggingSteps timelyFrame)) = 2%nat /\
  frameRequestId (this (settle (step loggingSteps timelyFrame))) = 2 /\
  settle (step loggingSteps (stop timelyFrame)) = stop timelyFrame.
Proof.
  assert (Hq : forall s args v, Forall quiet (loggingSteps s args v))
    by (intros [|[|s]] args v; repeat constructor).
  destruct (one_request_per_processed_tick loggingSteps timelyFrame Hq)
    as (H1 & _).
  destruct (one_request_per_processed_tick loggingSteps (stop timelyFrame) Hq)
    as (_ & H2).
  destruct (H1 (conj eq_refl eq_refl)) as (Ha & Hb & _).
  split; [exact Ha|]. split; [exact Hb|].
  apply H2. left. reflexivity.
Defined.

Lemma lastRequested_snoc (tr : list Event) (e : Event) :
  lastRequested (tr ++ [e]) =
    match e with
    | Requested h => Some h
    | _ => lastRequested tr
    end.
Proof. unfold lastRequested. rewrite fold_left_app. reflexivity. Qed.

Lemma perform_holdsLatest (a : Action) (w : World) :
  True -> holdsLatest w -> holdsLatest (settle (perform a w)).
Proof.
  destruct w as [[r p us rs st lt el fid rf thr] n rq co tr].
  unfold holdsLatest. cbn. intros _ H.
  destruct a; cbn; try exact H.
  - unfold start. cbn. destruct r; cbn; [exact H|].
    destruct p; cbn; intros _; apply lastRequested_snoc.
  - unfold stop. cbn. destruct r; cbn; [|exact H].
    destruct (fid =? INVALID_REQUEST_ID); cbn; [exact H | discriminate].
  - unfold pause, stop. cbn. destruct r; cbn; [|exact H].
    destruct p; cbn; [exact H|].
    destruct (fid =? INVALID_REQUEST_ID); cbn; [exact H | discriminate].
Qed.

Lemma called_holdsLatest (s : StepId) (args : list Z) (w : World) :
  holdsLatest w -> holdsLatest (record (Called s args) w).
Proof.
  unfold holdsLatest. intros H Hr.
  change (trace (record (Called s args) w)) with (trace w ++ [Called s args]).
  rewrite lastRequested_snoc. now apply H.
Qed.

Section Latest.

Variable callback : StepId -> list Z -> World -> list Action.

Lemma step_holdsLatest (w : World) :
  holdsLatest w -> holdsLatest (settle (step callback w)).
Proof.
  intros Hw. destruct (processed_dec w) as [Hp | Hskip].
  - assert (Ha : holdsLatest (armed w)).
    { unfold holdsLatest. cbn. intros _. apply lastRequested_snoc. }
    destruct (overflows_dec w) as [Hov | Hin].
    + rewrite (step_overflow _ _ Hp Hov). exact Ha.
    + apply (step_in_time_invariant_called callback holdsLatest (fun _ => True)
               perform_holdsLatest (always_ok callback) w Hp Hin).
      * intros s v. apply called_holdsLatest.
      * intros s v. apply called_holdsLatest.
      * exact Ha.
      * intros v Hv. exact Hv.
  - now rewrite (step_skipped _ _ Hskip).
Qed.

Lemma run_holdsLatest (ops : list Op) (w : World) :
  holdsLatest w -> holdsLatest (run callback ops w).
Proof.
  revert w. induction ops as [|o rest IH]; intros w Hw; [exact Hw|].
  cbn. apply IH. destruct o as [a|]; cbn.
  - now apply perform_holdsLatest.
  - now apply step_holdsLatest.
Qed.

End Latest.

(** X8.  While the controller runs, [frameRequestId] is the handle that the most
    recent call of the frame source returned, whatever calls, frames and
    steps came before; so the request that [stop()] cancels is the one that
    is pending, never an older one. *)
Theorem stop_cancels_the_latest_request
  (callback : StepId -> list Z -> World -> list Action)
  (w0 : World) (ops : list Op) :
  isRunning (this w0) = false ->
  isRunning (this (run callback ops w0)) = true ->
  lastRequested (trace (run callback ops w0))
    = Some (frameRequestId (this (run callback ops w0))) /\
  (frameRequestId (this (run callback ops w0)) <> INVALID_REQUEST_ID ->
   forall h, lastRequested (trace (run callback ops w0)) = Some h ->
     trace (stop (run callback ops w0))
       = trace (run callback ops w0) ++ [Cancelled h]).
Proof.
  intros H0 Hr.
  assert (Hl : holdsLatest (run callback ops w0)).
  { apply run_holdsLatest. unfold holdsLatest. rewrite H0. discriminate. }
  specialize (Hl Hr). split; [exact Hl|].
  intros Hid h Hh. rewrite Hl in Hh. injection Hh as <-.
  unfold stop. rewrite Hr. cbn.
  destruct (Z.eqb_spec (frameRequestId (this (run callback ops w0)))
              INVALID_REQUEST_ID); [contradiction | reflexivity].
Qed.

Lemma stop_cancels_the_latest_request_witness :
  lastRequested
    (trace (run loggingSteps [Owner CallStart; Owner (TimePasses 16); Tick]
              builtWorld))
    = Some 2 /\
  frameRequestId
    (this (run loggingSteps [Owner CallStart; Owner (TimePasses 16); Tick]
             builtWorld)) = 2.
Proof.
  destruct (stop_cancels_the_latest_request loggingSteps builtWorld
              [Owner CallStart; Owner (TimePasses 16); Tick] eq_refl eq_refl)
    as (H & _).
  split; [|reflexivity]. rewrite H. reflexivity.
Defined.

Lemma perform_scheduleConsistent (a : Action) (w : World) :
  True -> scheduleConsistent w -> scheduleConsistent (settle (perform a w)).
Proof.
  unfold scheduleConsistent.
  destruct w as [[r p us rs st lt el fid rf thr] n rq co tr]. cbn.
  intros _ (Hv & Hon & Hoff).
  destruct a; cbn; auto.
  - unfold start. cbn. destruct r; cbn; [auto|].
    destruct p; cbn; repeat split; auto; intros; discriminate.
  - unfold stop. cbn. destruct r; cbn; [|auto].
    destruct (Z.eqb_spec fid INVALID_REQUEST_ID); cbn; [auto|].
    repeat split; auto; intros; discriminate.
  - unfold pause, stop. cbn. destruct r; cbn; [|auto].
    destruct p; cbn; [auto|].
    destruct (Z.eqb_spec fid INVALID_REQUEST_ID) as [E|E].
    + exfalso. now apply Hon.
    + cbn. repeat split; auto; intros; discriminate.
Qed.

Section Schedule.

Variable callback : StepId -> list Z -> World -> list Action.

Lemma step_scheduleConsistent (w : World) :
  scheduleConsistent w -> scheduleConsistent (settle (step callback w)).
Proof.
  intros Hw. destruct (processed_dec w) as [Hp | Hskip].
  - assert (Ha : scheduleConsistent (armed w)).
    { destruct Hw as (Hv & Hon & Hoff). destruct Hp as [Hr _].
      unfold scheduleConsistent. cbn. repeat split; auto.
      rewrite Hr. discriminate. }
    destruct (overflows_dec w) as [Hov | Hin].
    + rewrite (step_overflow _ _ Hp Hov). exact Ha.
    + apply (step_in_time_invariant callback scheduleConsistent
               (fun _ => True) perform_scheduleConsistent
               (fun e v Hv => Hv) (always_ok callback) w Hp Hin).
      * exact Ha.
      * intros v Hv. exact Hv.
  - now rewrite (step_skipped _ _ Hskip).
Qed.

Lemma run_scheduleConsistent (ops : list Op) (w : World) :
  scheduleConsistent w -> scheduleConsistent (run callback ops w).
Proof.
  revert w. induction ops as [|o rest IH]; intros w Hw; [exact Hw|].
  cbn. apply IH. destruct o as [a|]; cbn.
  - now apply perform_scheduleConsistent.
  - now apply step_scheduleConsistent.
Qed.

End Schedule.

(** X9.  With a frame source that never returns -1, in every state that calls of
    the methods, edits of the step lists, frames and steps lead to from a new
    controller, [frameRequestId] differs from the sentinel exactly while the
    controller runs. *)
Theorem handle_held_exactly_while_running
  (callback : StepId -> list Z -> World -> list Action)
  (source : FrameSource) (n : Js.Double) (t : Z) (ops : list Op) :
  (forall k, source k <> INVALID_REQUEST_ID) ->
  (isRunning (this (run callback ops (fresh (newController source n) t))) = true
   <->
   frameRequestId (this (run callback ops (fresh (newController source n) t)))
     <> INVALID_REQUEST_ID).
Proof.
  intros Hsrc.
  assert (H : scheduleConsistent
                (run callback ops (fresh (newController source n) t))).
  { apply run_scheduleConsistent. unfold scheduleConsistent. cbn.
    repeat split; auto. discriminate. }
  destruct H as (_ & Hon & Hoff). split; [exact Hon|].
  intros Hid.
  destruct (isRunning (this (run callback ops (fresh (newController source n) t))));
    [reflexivity|].
  exfalso. apply Hid. now apply Hoff.
Qed.

Lemma handle_held_exactly_while_running_witness :
  isRunning
    (this (run loggingSteps [Owner CallStart; Tick; Owner CallPause; Tick]
             (fresh (newController countingSource ALLOWED_OVERFLOW_FRAMES) 1000))) = true
  <->
  frameRequestId
    (this (run loggingSteps [Owner CallStart; Tick; Owner CallPause; Tick]
             (fresh (newController countingSource ALLOWED_OVERFLOW_FRAMES) 1000)))
    <> INVALID_REQUEST_ID.
Proof.
  apply (handle_held_exactly_while_running loggingSteps countingSource
           ALLOWED_OVERFLOW_FRAMES 1000).
  intros k. unfold countingSource, INVALID_REQUEST_ID. lia.
Defined.


(** ** What the overflow policy guarantees to the steps *)

Lemma perform_trace_bounded (bound : Js.Integral) (a : Action) (w : World) :
  Forall (boundedCall bound) (trace w) ->
  Forall (boundedCall bound) (trace (settle (perform a w))).
Proof.
  destruct w as [[r p us rs st lt el fid rf thr] n rq co tr]. cbn. intros H.
  assert (Hh : forall e, isStepCall e = false ->
                 Forall (boundedCall bound) (tr ++ [e])).
  { intros e He. apply Forall_app. split; [exact H|].
    constructor; [|constructor]. destruct e; [exact I | exact I | discriminate He]. }
  destruct a; cbn; try exact H.
  - unfold start. cbn. destruct r; cbn; [exact H|].
    destruct p; cbn; now apply Hh.
  - unfold stop. cbn.
    destruct (negb r || (fid =? INVALID_REQUEST_ID)); cbn; [exact H|].
    now apply Hh.
  - unfold pause, stop. cbn. destruct (negb r || p); cbn; [exact H|].
    destruct (negb r || (fid =? INVALID_REQUEST_ID)); cbn; [exact H|].
    now apply Hh.
Qed.

Section Bounded.

Variable callback : StepId -> list Z -> World -> list Action.
Hypothesis callbacks_forward :
  forall s args v, Forall forward (callback s args v).

Lemma step_trace_bounded (bound : Js.Integral) (w : World) :
  clockSane w ->
  allowedOverflowThreshold (this w) = bound ->
  Forall (boundedCall bound) (trace w) ->
  clockSane (settle (step callback w)) /\
  allowedOverflowThreshold (this (settle (step callback w))) = bound /\
  Forall (boundedCall bound) (trace (settle (step callback w))).
Proof.
  intros Hs Hb Ht. destruct (processed_dec w) as [Hp | Hskip].
  - assert (Hgap : 0 <= elapsedSinceLast w).
    { unfold elapsedSinceLast. destruct Hp as [Hr _]. specialize (Hs Hr). lia. }
    assert (Hta : Forall (boundedCall bound) (trace (armed w))).
    { cbn. apply Forall_app. split; [exact Ht|]. repeat constructor. }
    destruct (overflows_dec w) as [Hov | Hin].
    + rewrite (step_overflow _ _ Hp Hov). cbn. repeat split; auto.
      unfold clockSane. cbn. lia.
    + assert (Hle : Js.gt (elapsedSinceLast w) bound = false).
      { unfold overflows in Hin. rewrite Hb in Hin.
        now destruct (Js.gt (elapsedSinceLast w) bound). }
      assert (H : onwards w (settle (step callback w)) /\
                  allowedOverflowThreshold (this (settle (step callback w)))
                    = bound /\
                  Forall (boundedCall bound) (trace (settle (step callback w)))).
      { apply (step_in_time_invariant_called callback
                 (fun v => onwards w v /\
                           allowedOverflowThreshold (this v) = bound /\
                           Forall (boundedCall bound) (trace v))
                 forward).
        - intros a v Ha (H1 & H2 & H3). split; [now apply perform_onwards|].
          split; [|now apply perform_trace_bounded].
          rewrite <- H2. apply perform_keeps_accounts.
        - exact callbacks_forward.
        - exact Hp.
        - exact Hin.
        - intros s v (H1 & H2 & H3). split; [now apply record_onwards|].
          split; [exact H2|]. cbn. apply Forall_app. split; [exact H3|].
          constructor; [|constructor]. cbn. split; [exact Hgap | exact Hle].
        - intros s v (H1 & H2 & H3). split; [now apply record_onwards|].
          split; [exact H2|]. cbn. apply Forall_app. split; [exact H3|].
          constructor; [|constructor]. exact I.
        - split; [|split; [exact Hb | exact Hta]].
          unfold onwards, clockSane. cbn. destruct Hp as [Hr _].
          specialize (Hs Hr). repeat split; auto; lia.
        - intros v ((H1 & H1' & H1'') & H2 & H3).
          split; [|split; [exact H2 | exact H3]].
          unfold onwards, clockSane. cbn. repeat split; auto. }
      destruct H as ((H1 & _) & H2 & H3). repeat split; assumption.
  - rewrite (step_skipped _ _ Hskip). repeat split; assumption.
Qed.

Lemma run_trace_bounded (bound : Js.Integral) (ops : list Op) (w : World) :
  Forall (onOwner forward) ops ->
  clockSane w ->
  allowedOverflowThreshold (this w) = bound ->
  Forall (boundedCall bound) (trace w) ->
  Forall (boundedCall bound) (trace (run callback ops w)).
Proof.
  intros Hops. revert w.
  induction Hops as [|o rest Ho _ IH]; intros w Hs Hb Ht; [exact Ht|].
  cbn. destruct o as [a|]; cbn in *.
  - apply IH.
    + apply (perform_onwards w a w Ho). now apply onwards_refl.
    + rewrite <- Hb. apply perform_keeps_accounts.
    + now apply perform_trace_bounded.
  - destruct (step_trace_bounded bound w Hs Hb Ht) as (H1 & H2 & H3).
    now apply IH.
Qed.

End Bounded.

(** X10.  No update step is ever handed an elapsed time above
    [allowedOverflowThreshold], and none a negative one as long as the clock
    does not run backwards: in every run from a controller that is not
    running, every call of a step in the trace has either no argument (a
    render step) or one argument between 0 and the threshold (an update
    step). *)
Theorem update_steps_get_bounded_elapsed_time
  (callback : StepId -> list Z -> World -> list Action)
  (w0 : World) (ops : list Op) :
  (forall s args v, Forall forward (callback s args v)) ->
  Forall (onOwner forward) ops ->
  isRunning (this w0) = false ->
  stepCalls (trace w0) = [] ->
  forall s args, In (Called s args) (trace (run callback ops w0)) ->
    args = [] \/
    exists elapsed, args = [elapsed] /\
      0 <= elapsed /\
      Js.gt elapsed (allowedOverflowThreshold (this w0)) = false /\
      (forall threshold,
         allowedOverflowThreshold (this w0) = Js.Int threshold ->
         elapsed <= threshold).
Proof.
  intros Hcb Hops Hr Hnone s args Hin.
  assert (Ht : Forall (boundedCall (allowedOverflowThreshold (this w0)))
                 (trace w0)).
  { apply Forall_forall. intros e He. destruct e as [h|h|s' args']; try exact I.
    exfalso.
    assert (Hf : In (Called s' args') (stepCalls (trace w0))).
    { apply filter_In. split; [exact He | reflexivity]. }
    rewrite Hnone in Hf. exact Hf. }
  assert (Hs : clockSane w0) by (unfold clockSane; rewrite Hr; discriminate).
  pose proof (run_trace_bounded callback Hcb _ ops w0 Hops Hs eq_refl Ht) as Hb.
  rewrite Forall_forall in Hb. specialize (Hb _ Hin). cbn in Hb.
  destruct args as [|e [|e' rest]].
  - now left.
  - right. exists e. split; [reflexivity|]. destruct Hb as (H0 & Hgt).
    split; [exact H0|]. split; [exact Hgt|].
    intros threshold E. rewrite E in Hgt. cbn in Hgt. lia.
  - contradiction.
Qed.

Lemma update_steps_get_bounded_elapsed_time_witness :
  [16] = [] \/ exists elapsed, [16] = [elapsed] /\ 0 <= elapsed <= 167.
Proof.
  assert (H : [16] = [] \/
              exists elapsed, [16] = [elapsed] /\
                0 <= elapsed /\
                Js.gt elapsed (allowedOverflowThreshold (this builtWorld))
                  = false /\
                (forall threshold,
                   allowedOverflowThreshold (this builtWorld)
                     = Js.Int threshold ->
                   elapsed <= threshold)); [|
    destruct H as [H | (elapsed & E & H0 & _ & Hle)];
      [now left | right; exists elapsed; split; [exact E|];
                  split; [exact H0 | apply Hle; vm_compute; reflexivity]]].
  assert (Hcb : forall s args v, Forall forward (loggingSteps s args v))
    by (intros [|[|s]] args v; repeat constructor).
  assert (Hops : Forall (onOwner forward) (Owner CallStart :: scenarioFrames))
    by (repeat constructor; cbn; lia).
  apply (update_steps_get_bounded_elapsed_time loggingSteps builtWorld
           (Owner CallStart :: scenarioFrames) Hcb Hops eq_refl eq_refl
           0%nat [16]).
  vm_compute. do 2 right. left. reflexivity.
Defined.


(** ** A budget below zero *)

(** Rounding a rational that is 1 at least: the mantissa fills its 53 bits
    and the last place is 2 ^ -52 at least. *)
Lemma roundPos_at_least_one (p q : Z) :
  0 < q -> q <= p ->
  2 ^ 52 <= fst (Js.roundPos p q) /\ -52 <= snd (Js.roundPos p q).
Proof.
  intros Hq Hqp. unfold Js.roundPos, Js.floorLog2.
  destruct (Z.leb_spec q p) as [_|]; [|lia].
  assert (Hpq : 1 <= p / q) by (apply Z.div_le_lower_bound; lia).
  pose proof (Z.log2_nonneg (p / q)) as HL.
  assert (H2L : 2 ^ Z.log2 (p / q) <= p / q) by (apply Z.log2_spec; lia).
  assert (Hp : q * 2 ^ Z.log2 (p / q) <= p).
  { transitivity (q * (p / q));
      [apply Z.mul_le_mono_nonneg_l; lia | apply Z.mul_div_le; lia]. }
  set (L := Z.log2 (p / q)) in *.
  rewrite Z.max_l by lia.
  cbv zeta.
  assert (Hm0 : 2 ^ 52 <=
                (if 0 <=? L - 52 then p else p * 2 ^ (- (L - 52)))
                / (if 0 <=? L - 52 then q * 2 ^ (L - 52) else q)).
  { destruct (Z.leb_spec 0 (L - 52)) as [He | He].
    - assert (E : 2 ^ L = 2 ^ (L - 52) * 2 ^ 52).
      { rewrite <- Z.pow_add_r by lia. f_equal. lia. }
      assert (0 < 2 ^ (L - 52)) by (apply Z.pow_pos_nonneg; lia).
      apply Z.div_le_lower_bound; [nia|]. rewrite E in Hp. lia.
    - assert (E : 2 ^ 52 = 2 ^ L * 2 ^ (- (L - 52))).
      { rewrite <- Z.pow_add_r by lia. f_equal. lia. }
      assert (0 < 2 ^ (- (L - 52))) by (apply Z.pow_pos_nonneg; lia).
      apply Z.div_le_lower_bound; [lia|]. rewrite E.
      transitivity (q * 2 ^ L * 2 ^ (- (L - 52))); [lia|].
      apply Z.mul_le_mono_nonneg_r; lia. }
  set (a := if 0 <=? L - 52 then p else p * 2 ^ (- (L - 52))) in *.
  set (b := if 0 <=? L - 52 then q * 2 ^ (L - 52) else q) in *.
  set (m0 := a / b) in *.
  destruct ((b <? 2 * (a mod b)) || ((b =? 2 * (a mod b)) && Z.odd m0));
    match goal with
    | |- context [?m =? 2 ^ 53] => destruct (m =? 2 ^ 53)
    end; cbn [fst snd]; lia.
Qed.

Lemma pack_negative (m e : Z) :
  2 ^ 52 <= m -> -52 <= e ->
  Js.pack true (m, e) = Js.NegInfinity \/
  exists d, Js.pack true (m, e) = Js.Finite d /\ (Js.value d <= -1)%Q.
Proof.
  intros Hm He. unfold Js.pack. cbn [fst snd].
  destruct (bool_dec (Js.inRange (- m) e) true) as [H|H]; [right | now left].
  eexists. split; [reflexivity|].
  unfold Js.value. cbn [Js.mantissa Js.exponent].
  assert (H52 : 0 < 2 ^ 52) by (apply Z.pow_pos_nonneg; lia).
  destruct (Z.leb_spec 0 e) as [H0 | H0].
  - change (-1)%Q with (inject_Z (-1)). rewrite <- Zle_Qle.
    assert (0 < 2 ^ e) by (apply Z.pow_pos_nonneg; lia). nia.
  - unfold Qle. cbn [Qnum Qden].
    assert (0 < 2 ^ (- e)) by (apply Z.pow_pos_nonneg; lia).
    rewrite Z2Pos.id by assumption.
    assert (2 ^ (- e) <= 2 ^ 52) by (apply Z.pow_le_mono_r; lia).
    lia.
Qed.

(** A number that is -1 at most rounds to a double that is -1 at most, or
    overflows to -Infinity. *)
Lemma round64_at_most_minus_one (x : Q) :
  (x <= -1)%Q ->
  Js.round64 x = Js.NegInfinity \/
  exists d, Js.round64 x = Js.Finite d /\ (Js.value d <= -1)%Q.
Proof.
  destruct x as [num den]. unfold Qle. cbn [Qnum Qden]. intros Hx.
  unfold Js.round64. cbn [Qnum Qden].
  destruct num as [|p|p]; [lia | lia |].
  destruct (roundPos_at_least_one (Z.pos p) (Z.pos den)) as (Hm & He);
    [lia | lia |].
  destruct (Js.roundPos (Z.pos p) (Z.pos den)) as [m e].
  now apply pack_negative.
Qed.

Lemma negative_budget_threshold (source : FrameSource) (n : Js.Double) :
  (Js.value n <= -1)%Q ->
  belowZero (allowedOverflowThreshold (newController source n)).
Proof.
  intros Hn. unfold newController. cbn [allowedOverflowThreshold].
  rewrite FRAMERATE_is_a_double. cbn [Js.mul].
  assert (Hx : (Js.value n * Js.value Reference.framerate <= -1)%Q).
  { apply Qle_trans with (y := ((-1) * Js.value Reference.framerate)%Q).
    - apply Qmult_le_compat_r; [exact Hn|]. vm_compute. discriminate.
    - vm_compute. discriminate. }
  destruct (round64_at_most_minus_one _ Hx) as [E | (d & E & Hd)]; rewrite E.
  - exact I.
  - cbn [Js.Math_round belowZero]. rewrite Zlt_Qlt.
    apply Qle_lt_trans with (y := (Js.value d + (1 # 2))%Q); [apply Qfloor_le|].
    apply Qle_lt_trans with (y := ((-1) + (1 # 2))%Q); [|reflexivity].
    apply Qplus_le_l. exact Hd.
Qed.

Lemma gt_belowZero (x : Z) (y : Js.Integral) :
  0 <= x -> belowZero y -> Js.gt x y = true.
Proof.
  intros Hx Hy. destruct y as [z| | |]; cbn in *; try contradiction;
    [|reflexivity].
  rewrite Z.gtb_ltb. apply Z.ltb_lt. lia.
Qed.

Section Discarding.

Variable callback : StepId -> list Z -> World -> list Action.

Lemma run_cons (o : Op) (ops : list Op) (w : World) :
  run callback (o :: ops) w = run callback ops (apply callback o w).
Proof. reflexivity. Qed.

Lemma run_discards_everything (ops : list Op) (w : World) :
  Forall (onOwner forward) ops ->
  belowZero (allowedOverflowThreshold (this w)) ->
  clockSane w ->
  stepCalls (trace (run callback ops w)) = stepCalls (trace w).
Proof.
  intros Hops. revert w.
  induction Hops as [|o rest Ho _ IH]; intros w Hneg Hs; [reflexivity|].
  rewrite run_cons. destruct o as [a|].
  - change (apply callback (Owner a) w) with (settle (perform a w)).
    rewrite IH.
    + apply perform_stepCalls.
    + now rewrite (proj1 (proj2 (perform_keeps_accounts a w))).
    + apply (perform_onwards w a w Ho). now apply onwards_refl.
  - change (apply callback Tick w) with (settle (step callback w)).
    destruct (processed_dec w) as [Hp | Hskip].
    + assert (Hov : overflows w).
      { unfold overflows, elapsedSinceLast. destruct Hp as [Hr _].
        specialize (Hs Hr). apply gt_belowZero; [lia | exact Hneg]. }
      rewrite (step_overflow _ _ Hp Hov).
      change (settle (Normal (modify (set_lastTimestamp (now w)) (armed w))))
        with (modify (set_lastTimestamp (now w)) (armed w)).
      rewrite IH.
      * apply accounted_stepCalls.
      * exact Hneg.
      * unfold clockSane. cbn. lia.
    + rewrite (step_skipped _ _ Hskip). now apply IH.
Qed.

End Discarding.

(** X11.  The constructor takes a budget of -1 frames or less without complaint,
    and the controller it builds never calls a step: with a threshold below
    zero every frame that passes the guard counts as late and is discarded,
    whatever is registered and however the methods are called, as long as the
    clock does not run backwards. *)
Theorem negative_budget_discards_every_frame
  (callback : StepId -> list Z -> World -> list Action)
  (raf source : FrameSource) (n : Js.Double) (t : Z) (ops : list Op) :
  (Js.value n <= -1)%Q ->
  Forall (onOwner forward) ops ->
  construct raf (Js.Function source) (Js.Num (Js.Finite n))
    = inr (newController source n) /\
  belowZero (allowedOverflowThreshold (newController source n)) /\
  stepCalls (trace (run callback ops (fresh (newController source n) t))) = [].
Proof.
  intros Hn Hops. split; [reflexivity|].
  assert (Hneg : belowZero (allowedOverflowThreshold (newController source n)))
    by exact (negative_budget_threshold source n Hn).
  split; [exact Hneg|].
  rewrite (run_discards_everything callback ops _ Hops); [reflexivity | exact Hneg |].
  unfold clockSane. cbn. discriminate.
Qed.

Lemma negative_budget_discards_every_frame_witness :
  allowedOverflowThreshold (newController countingSource minusOne)
    = Js.Int (-17) /\
  stepCalls
    (trace (run loggingSteps
              (Owner (EditUpdateSteps (fun l => l ++ [0%nat]))
               :: Owner CallStart :: scenarioFrames)
              (fresh (newController countingSource minusOne) 1000))) = [].
Proof.
  assert (Hn : (Js.value minusOne <= -1)%Q) by (vm_compute; discriminate).
  assert (Hops : Forall (onOwner forward)
                   (Owner (EditUpdateSteps (fun l => l ++ [0%nat]))
                    :: Owner CallStart :: scenarioFrames))
    by (repeat constructor; cbn; lia).
  destruct (negative_budget_discards_every_frame loggingSteps countingSource
              countingSource minusOne 1000 _ Hn Hops) as (_ & _ & H).
  split; [vm_compute; reflexivity | exact H].
Defined.


(** ** The accumulator and the wall clock *)

Lemma performAll_normal (body : list Action) (w : World) :
  Forall notThrow body -> exists w', performAll body w = Normal w'.
Proof.
  intros Hb. revert w. induction Hb as [|a rest Ha _ IH]; intros w.
  - now exists w.
  - cbn. destruct a; cbn in *; try apply IH. contradiction.
Qed.

Lemma perform_withinWallClock (a : Action) (w : World) :
  unstopped a -> withinWallClock w -> withinWallClock (settle (perform a w)).
Proof.
  destruct w as [[r p us rs st lt el fid rf thr] n rq co tr].
  unfold withinWallClock, unstopped. cbn. intros [Hf Hs] H.
  destruct a; cbn in *; try exact H.
  - unfold start. cbn. destruct r; cbn; [exact H|].
    destruct p; cbn; right.
    + destruct H as [(_ & Hp & _) | (_ & He & Hl)]; [discriminate Hp|].
      repeat split; auto; lia.
    + destruct H as [(_ & _ & He) | ([Hr | Hp] & _)];
        [|discriminate Hr | discriminate Hp].
      repeat split; auto; lia.
  - contradiction.
  - unfold pause, stop. cbn. destruct r; cbn; [|exact H].
    destruct p; cbn; [exact H|].
    destruct H as [(Hr & _) | (_ & He & Hl)]; [discriminate Hr|].
    destruct (fid =? INVALID_REQUEST_ID); cbn; right; repeat split; auto.
  - destruct H as [H | (Hrp & He & Hl)]; [now left|].
    right. repeat split; auto; lia.
Qed.

Lemma perform_steady_phase (b : World) (c : Z) (a : Action) (w : World) :
  steady a ->
  isRunning (this w) = true /\ isPaused (this w) = false /\
  startTimestamp (this w) = startTimestamp (this b) /\
  elapsedTimeInMilliseconds (this w) = c /\ now b <= now w ->
  isRunning (this (settle (perform a w))) = true /\
  isPaused (this (settle (perform a w))) = false /\
  startTimestamp (this (settle (perform a w))) = startTimestamp (this b) /\
  elapsedTimeInMilliseconds (this (settle (perform a w))) = c /\
  now b <= now (settle (perform a w)).
Proof.
  intros (Hq & Hf & _) H. destruct a; cbn in *; try contradiction; try exact H.
  destruct H as (? & ? & ? & ? & ?). repeat split; auto; lia.
Qed.

Section WallClock.

Variable callback : StepId -> list Z -> World -> list Action.
Hypothesis callbacks_steady :
  forall s args v, Forall steady (callback s args v).

Lemma forEachStep_normal (steps : list StepId) (args : list Z) (w : World) :
  exists w', forEachStep callback steps args w = Normal w'.
Proof.
  revert w. induction steps as [|s rest IH]; intros w.
  - now exists w.
  - cbn. unfold invoke.
    destruct (performAll_normal
                (callback s args (record (Called s args) w))
                (record (Called s args) w)) as [v Hv].
    + eapply Forall_impl; [|apply callbacks_steady]. intros a Ha. apply Ha.
    + rewrite Hv. cbn. apply IH.
Qed.

Lemma step_normal (w : World) : exists w', step callback w = Normal w'.
Proof.
  destruct (processed_dec w) as [Hp | Hskip].
  - destruct (overflows_dec w) as [Hov | Hin].
    + rewrite (step_overflow _ _ Hp Hov). eauto.
    + rewrite (step_in_time _ _ Hp Hin). unfold update.
      destruct (forEachStep_normal (updateSteps (this (accounted w)))
                  [elapsedSinceLast w] (accounted w)) as [wm Hm].
      rewrite Hm. cbn. unfold render.
      destruct (forEachStep_normal (renderSteps (this wm)) [] wm) as [wr Hr].
      rewrite Hr. cbn. eauto.
  - rewrite (step_skipped _ _ Hskip). eauto.
Qed.

Lemma step_in_time_lastTimestamp (w w' : World) :
  processed w -> ~ overflows w ->
  step callback w = Normal w' -> lastTimestamp (this w') = now w.
Proof.
  intros Hp Hov H. rewrite (step_in_time _ _ Hp Hov) in H.
  destruct (update callback (elapsedSinceLast w) (accounted w)) as [wm|wm];
    cbn in H; [|discriminate H].
  destruct (render callback wm) as [wr|wr]; cbn in H; [|discriminate H].
  injection H as <-. reflexivity.
Qed.

Lemma step_withinWallClock (w : World) :
  withinWallClock w -> withinWallClock (settle (step callback w)).
Proof.
  intros Hw. destruct (processed_dec w) as [[Hr Hpa] | Hskip].
  - destruct Hw as [(Hr' & _) | (_ & He & Hl)]; [congruence|].
    destruct (overflows_dec w) as [Hov | Hin].
    + rewrite (step_overflow _ _ (conj Hr Hpa) Hov).
      unfold withinWallClock. cbn. right. repeat split; auto; lia.
    + destruct (step_normal w) as [w' Hn].
      pose proof (step_in_time_lastTimestamp w w' (conj Hr Hpa) Hin Hn) as Hlast.
      assert (H : isRunning (this (settle (step callback w))) = true /\
                  isPaused (this (settle (step callback w))) = false /\
                  startTimestamp (this (settle (step callback w)))
                    = startTimestamp (this w) /\
                  elapsedTimeInMilliseconds (this (settle (step callback w)))
                    = elapsedTimeInMilliseconds (this w) + elapsedSinceLast w /\
                  now w <= now (settle (step callback w))).
      { apply (step_in_time_invariant callback _ steady
                 (perform_steady_phase w
                    (elapsedTimeInMilliseconds (this w) + elapsedSinceLast w))
                 (fun e v Hv => Hv) callbacks_steady w (conj Hr Hpa) Hin).
        - cbn. repeat split; auto. lia.
        - intros v Hv. exact Hv. }
      rewrite Hn in *. cbn in H. cbn.
      destruct H as (H1 & H2 & H3 & H4 & H5).
      unfold withinWallClock. right. unfold elapsedSinceLast in H4.
      repeat split; auto; lia.
  - now rewrite (step_skipped _ _ Hskip).
Qed.

Lemma run_withinWallClock (ops : list Op) (w : World) :
  Forall (onOwner unstopped) ops ->
  withinWallClock w -> withinWallClock (run callback ops w).
Proof.
  intros Hops. revert w. induction Hops as [|o rest Ho _ IH]; intros w Hw.
  - exact Hw.
  - cbn. apply IH. destruct o as [a|]; cbn in *.
    + now apply perform_withinWallClock.
    + now apply step_withinWallClock.
Qed.

End WallClock.

(** X12.  The accumulator never gets ahead of the wall clock.  Take a controller
    that was never started and has accumulated nothing, and any run in which
    [stop()] is not called, no step raises or calls a lifecycle method, and
    the clock does not run backwards (frames may be late, the controller may
    be paused and resumed any number of times).  Once the controller has been
    started, [elapsedTimeInMilliseconds] is at most the time from
    [startTimestamp] to [lastTimestamp]. *)
Theorem accumulator_within_wall_clock
  (callback : StepId -> list Z -> World -> list Action)
  (w0 : World) (ops : list Op) :
  (forall s args v, Forall steady (callback s args v)) ->
  Forall (onOwner unstopped) ops ->
  isRunning (this w0) = false ->
  isPaused (this w0) = false ->
  elapsedTimeInMilliseconds (this w0) = 0 ->
  isRunning (this (run callback ops w0)) = true \/
  isPaused (this (run callback ops w0)) = true ->
  elapsedTimeInMilliseconds (this (run callback ops w0))
    <= lastTimestamp (this (run callback ops w0))
       - startTimestamp (this (run callback ops w0)).
Proof.
  intros Hcb Hops Hr Hp He Hstarted.
  assert (H0 : withinWallClock w0).
  { left. repeat split; auto. lia. }
  destruct (run_withinWallClock callback Hcb ops w0 Hops H0)
    as [(Hr' & Hp' & _) | (_ & H & _)].
  - destruct Hstarted; congruence.
  - exact H.
Qed.

Lemma accumulator_within_wall_clock_witness :
  elapsedTimeInMilliseconds
    (this (run loggingSteps
             (Owner CallStart :: scenarioFrames
              ++ [Owner CallPause; Owner (TimePasses 5000); Owner CallStart;
                  Owner (TimePasses 16); Tick])
             builtWorld))
  <= lastTimestamp
       (this (run loggingSteps
                (Owner CallStart :: scenarioFrames
                 ++ [Owner CallPause; Owner (TimePasses 5000); Owner CallStart;
                     Owner (TimePasses 16); Tick])
                builtWorld))
     - startTimestamp
         (this (run loggingSteps
                  (Owner CallStart :: scenarioFrames
                   ++ [Owner CallPause; Owner (TimePasses 5000); Owner CallStart;
                       Owner (TimePasses 16); Tick])
                  builtWorld)).
Proof.
  assert (Hcb : forall s args v, Forall steady (loggingSteps s args v))
    by (intros [|[|s]] args v; repeat constructor).
  assert (Hops : Forall (onOwner unstopped)
                   (Owner CallStart :: scenarioFrames
                    ++ [Owner CallPause; Owner (TimePasses 5000);
                        Owner CallStart; Owner (TimePasses 16); Tick])).
  { repeat constructor; cbn; lia. }
  apply (accumulator_within_wall_clock loggingSteps builtWorld _ Hcb Hops
           eq_refl eq_refl eq_refl).
  left. reflexivity.
Defined.


(** Why the hypothesis on the steps is needed: with an update step that
    raises in every frame, two frames 16 ms apart charge 16 and then 32 ms,
    48 ms in all, while 32 ms have passed since the start. *)
Example raising_steps_count_time_twice :
  elapsedTimeInMilliseconds
    (this (run raisingSteps
             [Owner CallStart; Owner (TimePasses 16); Tick;
              Owner (TimePasses 16); Tick] builtWorld)) = 48 /\
  now (run raisingSteps
         [Owner CallStart; Owner (TimePasses 16); Tick;
          Owner (TimePasses 16); Tick] builtWorld)
  - startTimestamp
      (this (run raisingSteps
               [Owner CallStart; Owner (TimePasses 16); Tick;
                Owner (TimePasses 16); Tick] builtWorld)) = 32.
Proof. split; vm_compute; reflexivity. Qed.

(** * The earlier controller *)

(** X14.  The [pause()] of the earlier controller and the guarded one agree on a
    controller that is running and not paused.  On a controller that is not
    running the guarded one does nothing, while the earlier one marks it
    paused; after that the next [start()] takes itself for a resume and
    leaves [startTimestamp] as it is, where after the guarded [pause()] it
    takes the clock reading. *)
Theorem unguarded_pause_marks_an_idle_controller (w : World) :
  (isRunning (this w) = true -> isPaused (this w) = false ->
     Earlier.pause w = pause w) /\
  (isRunning (this w) = false ->
     pause w = w /\
     Earlier.pause w = modify (set_isPaused true) w /\
     startTimestamp (this (start (Earlier.pause w))) = startTimestamp (this w) /\
     (isPaused (this w) = false ->
        startTimestamp (this (start (pause w))) = now w)).
Proof.
  destruct w as [[r p us rs st lt el fid rf thr] n rq co tr]. cbn. split.
  - intros -> ->. reflexivity.
  - intros ->. unfold Earlier.pause, pause, stop, start. cbn.
    repeat split. intros ->. reflexivity.
Qed.

(** * GamePadAdapter *)

Module AdapterFacts.

Import Adapter.

Lemma mapIds_connected (l : list (option Gamepad)) :
  mapIds (filter isConnected l) = inr (connectedPadIds l).
Proof.
  induction l as [|[p|] rest IH].
  - reflexivity.
  - change (filter isConnected (Some p :: rest))
      with (if connected p
            then Some p :: filter isConnected rest
            else filter isConnected rest).
    change (connectedPadIds (Some p :: rest))
      with ((if connected p then [id p] else []) ++ connectedPadIds rest).
    destruct (connected p).
    + cbn [mapIds]. rewrite IH. reflexivity.
    + exact IH.
  - exact IH.
Qed.

Lemma updateConnectedGamepads_total (s : State) :
  updateConnectedGamepads s
    = inr (mkState (host s) (connectedPadIds (getGamepads (host s)))).
Proof. unfold updateConnectedGamepads. now rewrite mapIds_connected. Qed.

Lemma connectedPadIds_In (l : list (option Gamepad)) (i : string) :
  In i (connectedPadIds l) <->
  exists p, In (Some p) l /\ connected p = true /\ id p = i.
Proof.
  unfold connectedPadIds. rewrite in_flat_map. split.
  - intros ([p|] & Hin & Hi); [|contradiction].
    destruct (connected p) eqn:Hc; [|contradiction].
    destruct Hi as [<- | []]. now exists p.
  - intros (p & Hin & Hc & <-). exists (Some p). split; [exact Hin|].
    rewrite Hc. now left.
Qed.

Lemma connectedPadIds_length (l : list (option Gamepad)) :
  (List.length (connectedPadIds l)
   <= List.length (filter (fun g => negb (Nil_is g)) l))%nat.
Proof.
  induction l as [|[p|] rest IH].
  - apply le_n.
  - change (connectedPadIds (Some p :: rest))
      with ((if connected p then [id p] else []) ++ connectedPadIds rest).
    change (filter (fun g => negb (Nil_is g)) (Some p :: rest))
      with (Some p :: filter (fun g => negb (Nil_is g)) rest).
    destruct (connected p); cbn [app List.length]; lia.
  - exact IH.
Qed.

End AdapterFacts.

(** X15.  The adapter's list of connected ids can be refreshed on any list the
    host returns: the property read of every entry is guarded by the filter,
    so [null] entries never make it raise.  After the refresh an id is in
    [connectedIds] exactly when the host's list holds a gamepad with that id
    whose [connected] flag is set, and [connectedIds] is no longer than the
    list the getter [gamepads] returns. *)
Theorem connected_ids_are_the_connected_gamepads (s : Adapter.State) :
  exists s',
    Adapter.updateConnectedGamepads s = inr s' /\
    Adapter.host s' = Adapter.host s /\
    (forall i, In i (Adapter.connectedIds s') <->
       exists p, In (Some p) (Adapter.getGamepads (Adapter.host s)) /\
                 Adapter.connected p = true /\ Adapter.id p = i) /\
    (List.length (Adapter.connectedIds s') <= List.length (Adapter.gamepads s))%nat.
Proof.
  eexists. split; [apply AdapterFacts.updateConnectedGamepads_total|].
  cbn. split; [reflexivity|]. split.
  - intros i. apply AdapterFacts.connectedPadIds_In.
  - apply AdapterFacts.connectedPadIds_length.
Qed.

Lemma adapter_construction_holds (h : Adapter.Host) :
  Adapter.hasGetGamepads h = true ->
  exists s,
    Adapter.construct h = inr s /\
    Adapter.connectedIds s = Adapter.connectedPadIds (Adapter.getGamepads h) /\
    Adapter.getGamepads (Adapter.host s) = Adapter.getGamepads h /\
    Adapter.listeners (Adapter.host s)
      = Adapter.listeners h
        ++ [(Adapter.DID_CONNECT, Adapter.onGamepadConnect);
            (Adapter.DID_DISCONNECT, Adapter.onGamepadDisconnect)].
Proof.
  intros Hapi. unfold Adapter.construct.
  rewrite AdapterFacts.updateConnectedGamepads_total, Hapi. cbn.
  eexists. split; [reflexivity|]. cbn. repeat split. now rewrite <- app_assoc.
Qed.

(** X16.  Building an adapter raises a [TypeError] exactly when the host has no
    [navigator.getGamepads]; otherwise it lists the gamepads connected at
    that moment and adds one listener for each of the two events, after the
    listeners the window already has. *)
Theorem adapter_construction (h : Adapter.Host) :
  ((exists e, Adapter.construct h = inl e) <->
   Adapter.hasGetGamepads h = false) /\
  (Adapter.hasGetGamepads h = true ->
   exists s,
     Adapter.construct h = inr s /\
     Adapter.connectedIds s = Adapter.connectedPadIds (Adapter.getGamepads h) /\
     Adapter.getGamepads (Adapter.host s) = Adapter.getGamepads h /\
     Adapter.listeners (Adapter.host s)
       = Adapter.listeners h
         ++ [(Adapter.DID_CONNECT, Adapter.onGamepadConnect);
             (Adapter.DID_DISCONNECT, Adapter.onGamepadDisconnect)]).
Proof.
  split; [|apply adapter_construction_holds].
  unfold Adapter.construct.
  rewrite AdapterFacts.updateConnectedGamepads_total.
  destruct (Adapter.hasGetGamepads h); cbn.
  - split; [intros [e He]; discriminate He | discriminate].
  - split; [reflexivity | intros _; eexists; reflexivity].
Qed.

Module AdapterSync.

Import Adapter.

Lemma dispatch_listeners (type : string) (ls : list (string * Handler))
  (acc : State) :
  fold_left
    (fun acc l =>
       if String.eqb (fst l) type
       then match handle (snd l) acc with
            | inr acc' => acc'
            | inl _ => acc
            end
       else acc)
    ls acc
  = mkState (host acc)
      (if existsb (fun l => String.eqb (fst l) type) ls
       then connectedPadIds (getGamepads (host acc))
       else connectedIds acc).
Proof.
  revert acc. induction ls as [|[ty h] rest IH]; intros acc.
  - now destruct acc.
  - cbn [fold_left existsb fst snd]. destruct (String.eqb ty type); cbn [orb].
    + assert (Hh : handle h acc
                   = inr (mkState (host acc)
                            (connectedPadIds (getGamepads (host acc)))))
        by (destruct h; apply AdapterFacts.updateConnectedGamepads_total).
      rewrite Hh, IH. cbn. now destruct (existsb _ rest).
    + apply IH.
Qed.

Lemma dispatchEvent_listened (type : string) (s : State) :
  hasListener type s = true ->
  dispatchEvent type s
    = mkState (host s) (connectedPadIds (getGamepads (host s))).
Proof.
  intros H. unfold dispatchEvent. rewrite dispatch_listeners.
  unfold hasListener in H. now rewrite H.
Qed.

Lemma happen_inSync (c : Change) (s : State) :
  inSync s ->
  inSync (happen c s) /\ getGamepads (host (happen c s)) = padsOf c.
Proof.
  intros (Hc & Hd & _). destruct c as [pads|pads]; cbn [happen padsOf];
    rewrite dispatchEvent_listened by assumption;
    unfold inSync; cbn; repeat split; assumption.
Qed.

Lemma last_cons {A : Type} (a d : A) (l : list A) :
  last (a :: l) d = last l a.
Proof.
  revert a d. induction l as [|b l IH]; intros a d; [reflexivity|].
  change (last (a :: b :: l) d) with (last (b :: l) d).
  now rewrite (IH b d), (IH b a).
Qed.

Lemma after_inSync (cs : list Change) (s : State) :
  inSync s ->
  inSync (after cs s) /\
  getGamepads (host (after cs s)) = last (map padsOf cs) (getGamepads (host s)).
Proof.
  revert s. induction cs as [|c cs IH]; intros s Hs.
  - split; [exact Hs | reflexivity].
  - destruct (happen_inSync c s Hs) as (Hs' & Hp).
    destruct (IH _ Hs') as (H1 & H2).
    change (after (c :: cs) s) with (after cs (happen c s)).
    split; [exact H1|]. rewrite H2, Hp.
    change (map padsOf (c :: cs)) with (padsOf c :: map padsOf cs).
    now rewrite last_cons.
Qed.

End AdapterSync.

(** X17.  An adapter built on a host with the API stays up to date as long as the
    host announces every change of its list with one of the two events: after
    any number of changes, [connectedIds] holds the ids of the connected
    gamepads of the list as the last change left it (of the list the adapter
    was built on, when nothing changed), in the order of that list. *)
Theorem adapter_follows_the_host
  (h : Adapter.Host) (cs : list Adapter.Change) :
  Adapter.hasGetGamepads h = true ->
  exists s,
    Adapter.construct h = inr s /\
    Adapter.connectedIds (Adapter.after cs s)
      = Adapter.connectedPadIds
          (last (map Adapter.padsOf cs) (Adapter.getGamepads h)).
Proof.
  intros Hapi. destruct (adapter_construction_holds h Hapi)
    as (s & Hs & Hids & Hpads & Hls).
  exists s. split; [exact Hs|].
  assert (Hsync : Adapter.inSync s).
  { unfold Adapter.inSync, Adapter.hasListener. rewrite Hls, Hids, Hpads.
    rewrite !existsb_app. cbn. rewrite !orb_true_r. repeat split. }
  destruct (AdapterSync.after_inSync cs s Hsync) as ((_ & _ & H1) & H2).
  now rewrite H1, H2, Hpads.
Qed.

Lemma adapter_follows_the_host_witness :
  exists s,
    Adapter.construct Adapter.sampleHost = inr s /\
    Adapter.connectedIds s = ["pad-a"%string; "pad-c"%string] /\
    Adapter.connectedIds
      (Adapter.after
         [Adapter.Disconnects [None; Some (Adapter.mkGamepad "pad-c" true)];
          Adapter.Connects
            [Some (Adapter.mkGamepad "pad-d" true);
             Some (Adapter.mkGamepad "pad-c" true)]]
         s)
      = ["pad-d"%string; "pad-c"%string].
Proof.
  destruct (adapter_follows_the_host Adapter.sampleHost
              [Adapter.Disconnects [None; Some (Adapter.mkGamepad "pad-c" true)];
               Adapter.Connects
                 [Some (Adapter.mkGamepad "pad-d" true);
                  Some (Adapter.mkGamepad "pad-c" true)]]
              eq_refl) as (s & Hs & H).
  exists s. split; [exact Hs|]. split; [|exact H].
  injection Hs as <-. reflexivity.
Defined.


(** * Frames over unchanged step lists *)

Lemma perform_lists (us rs : list StepId) (a : Action) (w : World) :
  leavesLists a ->
  updateSteps (this w) = us /\ renderSteps (this w) = rs ->
  updateSteps (this (settle (perform a w))) = us /\
  renderSteps (this (settle (perform a w))) = rs.
Proof.
  destruct w as [[r p us' rs' st lt el fid rf thr] n rq co tr]. cbn.
  intros Ha H. destruct a; cbn in *; try exact H; try contradiction.
  - unfold start. cbn. destruct r; cbn; [exact H|]. now destruct p.
  - unfold stop. cbn.
    now destruct (negb r || (fid =? INVALID_REQUEST_ID)).
  - unfold pause, stop. cbn. destruct (negb r || p); cbn; [exact H|].
    now destruct (negb r || (fid =? INVALID_REQUEST_ID)).
Qed.

Lemma perform_plain_lists (us rs : list StepId) (a : Action) (w : World) :
  plain a ->
  updateSteps (this w) = us /\ renderSteps (this w) = rs ->
  updateSteps (this (settle (perform a w))) = us /\
  renderSteps (this (settle (perform a w))) = rs.
Proof. intros [_ Ha]. now apply perform_lists. Qed.

Section Passes.

Variable callback : StepId -> list Z -> World -> list Action.
Hypothesis callbacks_plain :
  forall s args v, Forall plain (callback s args v).

Lemma forEachStep_completes (steps : list StepId) (args : list Z) (w : World) :
  exists w', forEachStep callback steps args w = Normal w'.
Proof.
  revert w. induction steps as [|s rest IH]; intros w.
  - now exists w.
  - cbn. unfold invoke.
    destruct (performAll_normal
                (callback s args (record (Called s args) w))
                (record (Called s args) w)) as [v Hv].
    + eapply Forall_impl; [|apply callbacks_plain]. intros a Ha. apply Ha.
    + rewrite Hv. cbn. apply IH.
Qed.

Lemma step_in_time_completes (w : World) :
  processed w -> ~ overflows w -> exists w', step callback w = Normal w'.
Proof.
  intros Hp Hin. rewrite (step_in_time _ _ Hp Hin). unfold update.
  destruct (forEachStep_completes (updateSteps (this (accounted w)))
              [elapsedSinceLast w] (accounted w)) as [wm Hm].
  rewrite Hm. cbn. unfold render.
  destruct (forEachStep_completes (renderSteps (this wm)) [] wm) as [wr Hr].
  rewrite Hr. cbn. eauto.
Qed.

Lemma step_passesSince (before : list Event) (us rs : list StepId) (w : World) :
  passesSince before us rs w ->
  passesSince before us rs (settle (step callback w)).
Proof.
  intros (Hu & Hr & gaps & Hg).
  destruct (processed_dec w) as [Hp | Hskip].
  - destruct (overflows_dec w) as [Hov | Hin].
    + rewrite (step_overflow _ _ Hp Hov). repeat split; auto.
      exists gaps. cbn. rewrite stepCalls_app, app_nil_r. exact Hg.
    + assert (Hl : updateSteps (this (settle (step callback w))) = us /\
                   renderSteps (this (settle (step callback w))) = rs).
      { apply (step_in_time_invariant callback _ plain
                 (perform_plain_lists us rs) (fun e v Hv => Hv)
                 callbacks_plain w Hp Hin).
        - now split.
        - intros v Hv. exact Hv. }
      destruct (step_in_time_completes w Hp Hin) as [w' Hn].
      destruct (step_in_time_calls callback w w' Hp Hin Hn) as (wm & Hm & Ht).
      assert (Hlm : updateSteps (this wm) = us /\ renderSteps (this wm) = rs).
      { pose proof (forEachStep_invariant callback _ plain
                      (perform_plain_lists us rs) (fun e v Hv => Hv)
                      (updateSteps (this (accounted w))) [elapsedSinceLast w]
                      (accounted w)
                      (fun s _ v => callbacks_plain s _ v)
                      (conj Hu Hr)) as H.
        unfold update in Hm. rewrite Hm in H. exact H. }
      rewrite Hn in *. change (settle (Normal w')) with w' in *.
      destruct Hl as [Hu' Hr'].
      split; [exact Hu'|]. split; [exact Hr'|].
      exists (gaps ++ [elapsedSinceLast w]).
      rewrite Ht, Hg, Hu, (proj2 Hlm), flat_map_app.
      change (flat_map (fullPass us rs) [elapsedSinceLast w])
        with (fullPass us rs (elapsedSinceLast w) ++ []).
      unfold fullPass. rewrite app_nil_r, <- !app_assoc. reflexivity.
  - rewrite (step_skipped _ _ Hskip).
    split; [exact Hu|]. split; [exact Hr|]. exists gaps. exact Hg.
Qed.

Lemma run_passesSince (before : list Event) (us rs : list StepId)
  (ops : list Op) (w : World) :
  Forall (onOwner leavesLists) ops ->
  passesSince before us rs w ->
  passesSince before us rs (run callback ops w).
Proof.
  intros Hops. revert w. induction Hops as [|o rest Ho _ IH]; intros w Hw.
  - exact Hw.
  - cbn. apply IH. destruct o as [a|]; cbn in *.
    + destruct Hw as (Hu & Hr & gaps & Hg).
      destruct (perform_lists us rs a w Ho (conj Hu Hr)) as [Hu' Hr'].
      repeat split; auto. exists gaps. now rewrite perform_stepCalls.
    + now apply step_passesSince.
Qed.

End Passes.



(** * Instances of the properties with a condition inside *)

Lemma stop_twice_witness :
  stop (stop timelyFrame) = stop timelyFrame /\ stop builtWorld = builtWorld.
Proof.
  split.
  - apply (stop_twice timelyFrame).
  - apply (proj2 (stop_twice builtWorld)). reflexivity.
Defined.

Lemma pause_twice_witness :
  pause (pause timelyFrame) = pause timelyFrame /\ pause builtWorld = builtWorld.
Proof.
  split.
  - apply (pause_twice timelyFrame).
  - apply (proj2 (pause_twice builtWorld)). left. reflexivity.
Defined.

Lemma unguarded_pause_marks_an_idle_controller_witness :
  Earlier.pause timelyFrame = pause timelyFrame /\
  startTimestamp (this (start (Earlier.pause builtWorld))) = 0 /\
  startTimestamp (this (start (pause builtWorld))) = 1000.
Proof.
  destruct (unguarded_pause_marks_an_idle_controller timelyFrame) as (H1 & _).
  destruct (unguarded_pause_marks_an_idle_controller builtWorld) as (_ & H2).
  destruct (H2 eq_refl) as (_ & _ & H3 & H4).
  split; [exact (H1 eq_refl eq_refl)|]. split; [exact H3 | exact (H4 eq_refl)].
Defined.

Lemma adapter_construction_witness :
  exists s,
    Adapter.construct Adapter.sampleHost = inr s /\
    Adapter.connectedIds s = ["pad-a"%string; "pad-c"%string].
Proof.
  destruct (proj2 (adapter_construction Adapter.sampleHost) eq_refl)
    as (s & Hs & Hids & _).
  exists s. split; [exact Hs | exact Hids].
Defined.
(** ** The arithmetic of the threshold *)

(** X18.  The product of two finite doubles, as the constructor computes it
    for the threshold, is the exact product rounded as IEEE 754 asks: a
    double that no other double is nearer to the exact product than, the one
    with the even mantissa when two are equally near, provided the exact
    product is less than half a last place above the largest double in
    magnitude; the infinity of its sign otherwise; never [NaN]. *)
Theorem product_of_doubles_is_correctly_rounded (a b : Js.Double) :
  correctlyRounded (Js.value a * Js.value b)
    (Js.mul (Js.Finite a) (Js.Finite b)).
Proof. cbn [Js.mul]. apply round64_correctlyRounded. Qed.

